(** * streamlit-apps: comb electrode outlines and random fiber meshes

    A shallow embedding of [src/pages/comb_dxf.py] (the interdigitated comb
    outline builder) and [src/lib/nanomesh.py] (the random fiber sampler and
    the mesh generation loop), with the properties the specification states
    about them.

    Number model.  Python [float] values are binary64 numbers, and two
    readings of them are kept apart.

    - Exact arithmetic: a [float] is a real number [R], and [+], [-], [*],
      [/], comparisons, [sqrt], [cos], [sin], [arccos] are the exact real
      operations; rounding, overflow, [nan] and [inf] are outside this
      reading.  It is used for the sampler and the mesh loop, and for what is
      said about the comb in terms of the expressions the code writes
      (modules [Comb] and [Nanomesh]).
    - Binary64: [build_geometry] is transcribed a second time over primitive
      binary64 floats, every operation rounded to nearest as Python rounds it
      (module [CombF64]).  This is the reading that decides what the code
      returns when it compares computed coordinates.

    Python [int] values are modelled as [Z]; an [int] that meets a [float] in
    arithmetic is converted ([IZR] in the first reading, [of_int] in the
    second). *)

From Stdlib Require Import Reals Lra Lia List ZArith String Bool.
From Stdlib Require Import Sorting.Sorted Sorting.Permutation.
From Stdlib Require Floats.PrimFloat Floats.FloatOps Floats.SpecFloat.
From Stdlib Require Uint63.
Import ListNotations.
Open Scope R_scope.

(* ================================================================== *)
(** * Part I.  Definitions                                             *)
(* ================================================================== *)

(** ** Python builtins used by both programs *)

(** [range(n)] for an [int] [n]: empty when [n <= 0]. *)
Definition range (n : Z) : list Z := map Z.of_nat (seq 0 (Z.to_nat n)).

(** One insertion step of an ascending stable sort; like Python's [sorted]
    it only ever asks whether one element is [<] another. *)
Fixpoint insort (x : R) (l : list R) : list R :=
  match l with
  | [] => [x]
  | y :: l' => if Rlt_dec y x then y :: insort x l' else x :: y :: l'
  end.

(** [sorted(l)] *)
Definition sorted (l : list R) : list R := fold_right insort [] l.

(** One insertion step of the descending stable sort. *)
Fixpoint insort_reverse (x : R) (l : list R) : list R :=
  match l with
  | [] => [x]
  | y :: l' => if Rlt_dec x y then y :: insort_reverse x l' else x :: y :: l'
  end.

(** [sorted(l, reverse=True)] *)
Definition sorted_reverse (l : list R) : list R := fold_right insort_reverse [] l.

(** ** [src/pages/comb_dxf.py] *)

Module Comb.

Definition point := (R * R)%type.

Definition x_left_bus : R := 0.0.

(** The [if i % 2 == 0] and [if i % 2 != 0] filters of the two generator
    expressions. *)
Definition is_even (i : Z) : bool := (i mod 2 =? 0)%Z.
Definition is_odd (i : Z) : bool := negb (i mod 2 =? 0)%Z.

(** [sorted(y0 + i * pitch for i in range(N) if i % 2 == 0)] *)
Definition e1_fingers (y0 pitch : R) (N : Z) : list R :=
  sorted (map (fun i => y0 + IZR i * pitch) (filter is_even (range N))).

(** [sorted(y0 + i * pitch for i in range(N) if i % 2 != 0)] *)
Definition e2_fingers (y0 pitch : R) (N : Z) : list R :=
  sorted (map (fun i => y0 + IZR i * pitch) (filter is_odd (range N))).

(** The [for fy in e1_fingers] loop: the state is the point list built so far
    and [cur_y]. *)
Fixpoint e1_loop (w L B : R) (fingers : list R) (e1_pts : list point) (cur_y : R)
  : list point * R :=
  match fingers with
  | [] => (e1_pts, cur_y)
  | fy :: rest =>
      let e1_pts := if Rgt_dec fy cur_y
                    then e1_pts ++ [(x_left_bus + B, fy)] else e1_pts in
      let e1_pts := e1_pts ++ [(x_left_bus + B + L, fy)] in
      let e1_pts := e1_pts ++ [(x_left_bus + B + L, fy + w)] in
      let e1_pts := e1_pts ++ [(x_left_bus + B, fy + w)] in
      e1_loop w L B rest e1_pts (fy + w)
  end.

(** The [for fy in sorted(e2_fingers, reverse=True)] loop. *)
Fixpoint e2_loop (w L x_right_bus : R) (fingers : list R) (e2_pts : list point)
  (cur_y : R) : list point * R :=
  match fingers with
  | [] => (e2_pts, cur_y)
  | fy :: rest =>
      let fy_top := fy + w in
      let e2_pts := if Rlt_dec fy_top cur_y
                    then e2_pts ++ [(x_right_bus, fy_top)] else e2_pts in
      let e2_pts := e2_pts ++ [(x_right_bus - L, fy_top)] in
      let e2_pts := e2_pts ++ [(x_right_bus - L, fy)] in
      let e2_pts := e2_pts ++ [(x_right_bus, fy)] in
      e2_loop w L x_right_bus rest e2_pts fy
  end.

(** The E1 outline: left busbar with the fingers growing to the right. *)
Definition e1_outline (w L B H : R) (fingers : list R) : list point :=
  let e1_pts := [(x_left_bus, 0.0); (x_left_bus + B, 0.0)] in
  let cur_y := 0.0 in
  let '(e1_pts, cur_y) := e1_loop w L B fingers e1_pts cur_y in
  let e1_pts := if Rgt_dec H cur_y then e1_pts ++ [(x_left_bus + B, H)] else e1_pts in
  e1_pts ++ [(x_left_bus, H)].

(** The E2 outline: right busbar with the fingers growing to the left. *)
Definition e2_outline (w L B H x_right_bus : R) (fingers : list R) : list point :=
  let e2_pts := [(x_right_bus + B, 0.0); (x_right_bus + B, H); (x_right_bus, H)] in
  let cur_y := H in
  let '(e2_pts, cur_y) :=
    e2_loop w L x_right_bus (sorted_reverse fingers) e2_pts cur_y in
  if Rgt_dec cur_y 0.0 then e2_pts ++ [(x_right_bus, 0.0)] else e2_pts.

(** [build_geometry(w, g, L, N, B, margin_top, margin_bottom)] returns
    [(polys, W, H)]. *)
Definition build_geometry (w g L : R) (N : Z) (B margin_top margin_bottom : R)
  : list (string * list point) * R * R :=
  let pitch := w + g in
  let active_h := IZR N * pitch - g in
  let H := margin_bottom + active_h + margin_top in
  let x_right_bus := B + L + g in
  let W := x_right_bus + B in
  let y0 := margin_bottom in
  let e1_pts := e1_outline w L B H (e1_fingers y0 pitch N) in
  let e2_pts := e2_outline w L B H x_right_bus (e2_fingers y0 pitch N) in
  let polys := [("E1"%string, e1_pts); ("E2"%string, e2_pts)] in
  (polys, W, H).

(** *** Reading an outline as a closed loop

    The consumer ([add_lwpolyline(..., close=True)]) joins consecutive points
    by straight edges and the last point back to the first. *)

(** Edges of an open path. *)
Fixpoint path_edges (l : list point) : list (point * point) :=
  match l with
  | a :: (b :: _) as l' => (a, b) :: path_edges l'
  | _ => []
  end.

(** Edges of the closed loop: the path followed by the closing edge. *)
Definition loop_edges (l : list point) : list (point * point) :=
  match l with
  | [] => []
  | a :: _ => path_edges (l ++ [a])
  end.

(** [p] lies on the straight segment from [a] to [b]. *)
Definition on_segment (a b p : point) : Prop :=
  exists t : R, 0 <= t <= 1 /\
    fst p = fst a + t * (fst b - fst a) /\
    snd p = snd a + t * (snd b - snd a).

(** [p] lies on the boundary traced by the closed loop [l]. *)
Definition on_loop (l : list point) (p : point) : Prop :=
  exists e, In e (loop_edges l) /\ on_segment (fst e) (snd e) p.

(** Euclidean distance in the plane. *)
Definition dist (p q : point) : R :=
  sqrt ((fst p - fst q) * (fst p - fst q) + (snd p - snd q) * (snd p - snd q)).

(** *** Notions used to state and prove the separation of the outlines *)

(** Every edge of the path [a :: l] satisfies [P]. *)
Fixpoint chain (P : point -> point -> Prop) (a : point) (l : list point) : Prop :=
  match l with
  | [] => True
  | b :: l' => P a b /\ chain P b l'
  end.

(** The region of E1: the half-plane of the left busbar, and one box per
    finger baseline in [F]. *)
Definition in_e1 (w L B : R) (F : R -> Prop) (p : point) : Prop :=
  fst p <= B \/
  exists fy, F fy /\ fst p <= B + L /\ fy <= snd p <= fy + w.

(** An edge with both ends in one convex piece of the region of E1. *)
Definition edge_e1 (w L B : R) (F : R -> Prop) (a b : point) : Prop :=
  (fst a <= B /\ fst b <= B) \/
  exists fy, F fy /\ (fst a <= B + L /\ fy <= snd a <= fy + w) /\
                      (fst b <= B + L /\ fy <= snd b <= fy + w).

(** The region of E2, for a right busbar starting at [xr]. *)
Definition in_e2 (w L xr : R) (F : R -> Prop) (p : point) : Prop :=
  xr <= fst p \/
  exists fy, F fy /\ xr - L <= fst p /\ fy <= snd p <= fy + w.

Definition edge_e2 (w L xr : R) (F : R -> Prop) (a b : point) : Prop :=
  (xr <= fst a /\ xr <= fst b) \/
  exists fy, F fy /\ (xr - L <= fst a /\ fy <= snd a <= fy + w) /\
                      (xr - L <= fst b /\ fy <= snd b <= fy + w).

(** Baselines met bottom-up, each at or above the top of the one before. *)
Fixpoint ascending_from (w cur : R) (l : list R) : Prop :=
  match l with
  | [] => True
  | fy :: l' => cur <= fy /\ ascending_from w (fy + w) l'
  end.

(** Baselines met top-down, each with its top at or below the one before. *)
Fixpoint descending_from (w cur : R) (l : list R) : Prop :=
  match l with
  | [] => True
  | fy :: l' => fy + w <= cur /\ descending_from w fy l'
  end.

End Comb.

(** ** [build_geometry] in binary64

    The same function once more, with every coordinate a binary64 float and
    every [+], [-], [*] and comparison the rounded operation Python performs.
    The definitions follow the source line by line, as those of [Comb] do. *)

Module CombF64.
Import PrimFloat FloatOps SpecFloat.
Local Open Scope float_scope.
Set Warnings "-inexact-float".

Definition point := (float * float)%type.

(** The conversion of an [int] that meets a [float]; exact for
    [|i| < 2^53], and all the counts of the page are far below. *)
Definition of_int (i : Z) : float :=
  if (i <? 0)%Z then - of_uint63 (Uint63.of_Z (- i)) else of_uint63 (Uint63.of_Z i).

(** [sorted] and [sorted(..., reverse=True)] on floats: the same stable
    insertion sorts, asking [<] of the floats. *)
Fixpoint insort (x : float) (l : list float) : list float :=
  match l with
  | [] => [x]
  | y :: l' => if y <? x then y :: insort x l' else x :: y :: l'
  end.

Definition sorted (l : list float) : list float := fold_right insort [] l.

Fixpoint insort_reverse (x : float) (l : list float) : list float :=
  match l with
  | [] => [x]
  | y :: l' => if x <? y then y :: insort_reverse x l' else x :: y :: l'
  end.

Definition sorted_reverse (l : list float) : list float :=
  fold_right insort_reverse [] l.

Definition x_left_bus : float := 0.0.

(** [sorted(y0 + i * pitch for i in range(N) if i % 2 == 0)] *)
Definition e1_fingers (y0 pitch : float) (N : Z) : list float :=
  sorted (map (fun i => y0 + of_int i * pitch) (filter Comb.is_even (range N))).

(** [sorted(y0 + i * pitch for i in range(N) if i % 2 != 0)] *)
Definition e2_fingers (y0 pitch : float) (N : Z) : list float :=
  sorted (map (fun i => y0 + of_int i * pitch) (filter Comb.is_odd (range N))).

(** The [for fy in e1_fingers] loop; [fy > cur_y] is [cur_y < fy]. *)
Fixpoint e1_loop (w L B : float) (fingers : list float) (e1_pts : list point)
  (cur_y : float) : list point * float :=
  match fingers with
  | [] => (e1_pts, cur_y)
  | fy :: rest =>
      let e1_pts := if cur_y <? fy
                    then (e1_pts ++ [(x_left_bus + B, fy)])%list else e1_pts in
      let e1_pts := (e1_pts ++ [(x_left_bus + B + L, fy)])%list in
      let e1_pts := (e1_pts ++ [(x_left_bus + B + L, fy + w)])%list in
      let e1_pts := (e1_pts ++ [(x_left_bus + B, fy + w)])%list in
      e1_loop w L B rest e1_pts (fy + w)
  end.

(** The [for fy in sorted(e2_fingers, reverse=True)] loop. *)
Fixpoint e2_loop (w L x_right_bus : float) (fingers : list float)
  (e2_pts : list point) (cur_y : float) : list point * float :=
  match fingers with
  | [] => (e2_pts, cur_y)
  | fy :: rest =>
      let fy_top := fy + w in
      let e2_pts := if fy_top <? cur_y
                    then (e2_pts ++ [(x_right_bus, fy_top)])%list else e2_pts in
      let e2_pts := (e2_pts ++ [(x_right_bus - L, fy_top)])%list in
      let e2_pts := (e2_pts ++ [(x_right_bus - L, fy)])%list in
      let e2_pts := (e2_pts ++ [(x_right_bus, fy)])%list in
      e2_loop w L x_right_bus rest e2_pts fy
  end.

Definition e1_outline (w L B H : float) (fingers : list float) : list point :=
  let e1_pts := [(x_left_bus, 0.0); (x_left_bus + B, 0.0)] in
  let cur_y := 0.0 in
  let '(e1_pts, cur_y) := e1_loop w L B fingers e1_pts cur_y in
  let e1_pts := if cur_y <? H
                then (e1_pts ++ [(x_left_bus + B, H)])%list else e1_pts in
  (e1_pts ++ [(x_left_bus, H)])%list.

Definition e2_outline (w L B H x_right_bus : float) (fingers : list float)
  : list point :=
  let e2_pts := [(x_right_bus + B, 0.0); (x_right_bus + B, H); (x_right_bus, H)] in
  let cur_y := H in
  let '(e2_pts, cur_y) :=
    e2_loop w L x_right_bus (sorted_reverse fingers) e2_pts cur_y in
  if 0.0 <? cur_y then (e2_pts ++ [(x_right_bus, 0.0)])%list else e2_pts.

(** [build_geometry(w, g, L, N, B, margin_top, margin_bottom)] *)
Definition build_geometry (w g L : float) (N : Z) (B margin_top margin_bottom : float)
  : list (string * list point) * float * float :=
  let pitch := w + g in
  let active_h := of_int N * pitch - g in
  let H := margin_bottom + active_h + margin_top in
  let x_right_bus := B + L + g in
  let W := x_right_bus + B in
  let y0 := margin_bottom in
  let e1_pts := e1_outline w L B H (e1_fingers y0 pitch N) in
  let e2_pts := e2_outline w L B H x_right_bus (e2_fingers y0 pitch N) in
  let polys := [("E1"%string, e1_pts); ("E2"%string, e2_pts)] in
  (polys, W, H).

(** *** The real number a float stands for

    A finite float is [m * 2^e] for an integer mantissa [m] and exponent [e];
    [decode] reads the two off the float. *)
Definition decode (f : float) : Z * Z :=
  match Prim2SF f with
  | S754_finite s m e => (if s then Z.neg m else Z.pos m, e)
  | _ => (0, 0)%Z
  end.

Definition exact (f : float) : R :=
  let '(m, e) := decode f in
  if (0 <=? e)%Z then IZR (m * 2 ^ e) else (IZR m / IZR (2 ^ (- e)))%R.

(** The point of the plane a pair of floats stands for. *)
Definition exact_point (p : point) : Comb.point := (exact (fst p), exact (snd p)).

Local Close Scope float_scope.
End CombF64.

(** ** [polys_to_dxf] of [src/pages/comb_dxf.py] *)

Module Dxf.
Import Comb.

(** The two entity types the function can add to the model space. *)
Inductive entity_kind : Type := LWPOLYLINE | POLYLINE2D.

Record entity : Type := {
  kind : entity_kind;
  points : list point;
  closed : bool;
  layer : string
}.

(** The part of the ezdxf library that [polys_to_dxf] calls.  A document is
    mutated in place by the program; here every call returns the document it
    leaves.  Every call that can raise returns [None] when it does:
    [ezdxf.new] for a version it does not know, [doc.layers.new] for a layer
    that exists already, and the two [add_*] calls for an entity the document
    cannot hold (an LWPOLYLINE in an R12 document) or a layer name it does not
    accept. *)
Class Ezdxf (Doc : Type) : Type := {
  (** [ezdxf.new(dxfversion)] *)
  new : string -> option Doc;
  (** [layer in doc.layers] *)
  has_layer : string -> Doc -> bool;
  (** [doc.layers.new(layer)] *)
  layers_new : string -> Doc -> option Doc;
  (** [msp.add_polyline2d(pts, close=, dxfattribs={"layer": layer})] *)
  add_polyline2d : list point -> bool -> string -> Doc -> option Doc;
  (** [msp.add_lwpolyline(pts, close=, dxfattribs={"layer": layer})] *)
  add_lwpolyline : list point -> bool -> string -> Doc -> option Doc;
  (** the entities of [doc.modelspace()], in the order added *)
  entities : Doc -> list entity
}.

(** The two layer names the program asks for. *)
Definition electrode_layers : list string := ["E1"%string; "E2"%string].

(** What the library documents about these calls: a new document has an
    empty model space; one of the layers E1, E2 that is not in the table can
    be created, and creating it touches neither the other layers nor the
    model space; a polyline that is added is appended as one entity, and the
    layer table is left alone.  Nothing is assumed about when adding a
    polyline succeeds. *)
Class EzdxfLaws (Doc : Type) `{Ezdxf Doc} : Prop := {
  new_empty : forall (v : string) (d : Doc), new v = Some d -> entities d = [];
  layers_new_absent : forall (name : string) (d : Doc),
    In name electrode_layers ->
    has_layer name d = false ->
    exists d', layers_new name d = Some d' /\
               has_layer name d' = true /\
               entities d' = entities d /\
               forall other, has_layer other d = true -> has_layer other d' = true;
  add_polyline2d_spec : forall pts c l (d d' : Doc),
    add_polyline2d pts c l d = Some d' ->
    entities d'
      = entities d ++ [{| kind := POLYLINE2D; points := pts; closed := c; layer := l |}] /\
    forall name, has_layer name d' = has_layer name d;
  add_lwpolyline_spec : forall pts c l (d d' : Doc),
    add_lwpolyline pts c l d = Some d' ->
    entities d'
      = entities d ++ [{| kind := LWPOLYLINE; points := pts; closed := c; layer := l |}] /\
    forall name, has_layer name d' = has_layer name d
}.

Section Builder.
Context {Doc : Type} `{Ezdxf Doc}.

(** [for layer in ["E1", "E2"]: if layer not in doc.layers: doc.layers.new(layer)] *)
Fixpoint ensure_layers (names : list string) (doc : Doc) : option Doc :=
  match names with
  | [] => Some doc
  | layer :: names' =>
      if negb (has_layer layer doc)
      then match layers_new layer doc with
           | Some doc' => ensure_layers names' doc'
           | None => None
           end
      else ensure_layers names' doc
  end.

(** [for layer, pts in polys: ...]; the loop stops at the first call that
    raises. *)
Fixpoint add_polys (dxf_version : string) (polys : list (string * list point))
  (doc : Doc) : option Doc :=
  match polys with
  | [] => Some doc
  | (layer, pts) :: polys' =>
      match (if String.eqb dxf_version "R12"
             then add_polyline2d pts true layer doc
             else add_lwpolyline pts true layer doc) with
      | Some doc' => add_polys dxf_version polys' doc'
      | None => None
      end
  end.

(** [polys_to_dxf(polys, dxf_version)]; [None] when a library call raises. *)
Definition polys_to_dxf (polys : list (string * list point)) (dxf_version : string)
  : option Doc :=
  match new dxf_version with
  | None => None
  | Some doc =>
      match ensure_layers electrode_layers doc with
      | None => None
      | Some doc => add_polys dxf_version polys doc
      end
  end.

End Builder.

(** The entity the loop adds for one pair of [polys]. *)
Definition entity_for (dxf_version : string) (poly : string * list point) : entity :=
  {| kind := if String.eqb dxf_version "R12" then POLYLINE2D else LWPOLYLINE;
     points := snd poly;
     closed := true;
     layer := fst poly |}.

(** *** A small document type that meets the laws

    It knows the release names and the version codes of the library, starts
    a document with the layers 0 and Defpoints, refuses a layer that exists
    or whose name is empty or holds a reserved character, and refuses an
    LWPOLYLINE in an R12 document. *)

Record simple_doc : Type := {
  version : string;
  layer_table : list string;
  modelspace : list entity
}.

Definition known_versions : list string :=
  ["R12"; "R2000"; "R2004"; "R2007"; "R2010"; "R2013"; "R2018";
   "AC1009"; "AC1015"; "AC1018"; "AC1021"; "AC1024"; "AC1027"; "AC1032"]%string.

(** The characters a layer name must not hold:
    less-than, greater-than, slash, backslash, double quote, colon,
    semicolon, question mark, star, bar, equals, backquote. *)
Definition reserved_chars : list Ascii.ascii :=
  map Ascii.ascii_of_nat [60; 62; 47; 92; 34; 58; 59; 63; 42; 124; 61; 96]%nat.

Definition valid_layer_name (name : string) : bool :=
  negb (String.eqb name "") &&
  forallb (fun c => negb (existsb (Ascii.eqb c) reserved_chars))
          (list_ascii_of_string name).

Definition is_r12 (d : simple_doc) : bool :=
  String.eqb (version d) "R12" || String.eqb (version d) "AC1009".

Definition simple_add (k : entity_kind) (pts : list point) (c : bool) (l : string)
  (d : simple_doc) : simple_doc :=
  {| version := version d; layer_table := layer_table d;
     modelspace := modelspace d
       ++ [{| kind := k; points := pts; closed := c; layer := l |}] |}.

Definition simple_ezdxf : Ezdxf simple_doc :=
  {| new := fun v =>
       if existsb (String.eqb v) known_versions
       then Some {| version := v;
                    layer_table := ["0"; "Defpoints"]%string;
                    modelspace := [] |}
       else None;
     has_layer := fun name d => existsb (String.eqb name) (layer_table d);
     layers_new := fun name d =>
       if existsb (String.eqb name) (layer_table d) || negb (valid_layer_name name)
       then None
       else Some {| version := version d;
                    layer_table := layer_table d ++ [name];
                    modelspace := modelspace d |};
     add_polyline2d := fun pts c l d =>
       if valid_layer_name l then Some (simple_add POLYLINE2D pts c l d) else None;
     add_lwpolyline := fun pts c l d =>
       if valid_layer_name l && negb (is_r12 d)
       then Some (simple_add LWPOLYLINE pts c l d) else None;
     entities := modelspace |}.

End Dxf.

(** ** [src/lib/nanomesh.py] *)

Module Nanomesh.

(** *** numpy vectors and the few numpy functions the program calls *)

Definition vec3 := (R * R * R)%type.

Definition vx (v : vec3) : R := fst (fst v).
Definition vy (v : vec3) : R := snd (fst v).
Definition vz (v : vec3) : R := snd v.

Definition vadd (a b : vec3) : vec3 := (vx a + vx b, vy a + vy b, vz a + vz b).
Definition vsub (a b : vec3) : vec3 := (vx a - vx b, vy a - vy b, vz a - vz b).
(** [k * v] and [v / k] for a scalar [k] *)
Definition vscale (k : R) (v : vec3) : vec3 := (k * vx v, k * vy v, k * vz v).
Definition vdiv (v : vec3) (k : R) : vec3 := (vx v / k, vy v / k, vz v / k).

(** [np.cross], [np.dot], [np.linalg.norm] on 3-vectors *)
Definition np_cross (a b : vec3) : vec3 :=
  (vy a * vz b - vz a * vy b, vz a * vx b - vx a * vz b, vx a * vy b - vy a * vx b).
Definition np_dot (a b : vec3) : R := vx a * vx b + vy a * vy b + vz a * vz b.
Definition norm (v : vec3) : R := sqrt (vx v * vx v + vy v * vy v + vz v * vz v).

(** [np.deg2rad] *)
Definition deg2rad (d : R) : R := d * (PI / 180).

(** [np.clip(a, a_min, a_max)], which numpy documents as
    [minimum(a_max, maximum(a, a_min))]. *)
Definition clip (a a_min a_max : R) : R := Rmin a_max (Rmax a a_min).

(** *** 4x4 homogeneous transforms

    Every matrix the program builds has bottom row [(0, 0, 0, 1)], so a
    transform is kept as its upper-left 3x3 block (three rows) and its
    translation column. *)

Definition mat3 := (vec3 * vec3 * vec3)%type.

Record mat4 : Type := { upper3 : mat3; column3 : vec3 }.

(** [M @ v] for a 3x3 block *)
Definition matvec (m : mat3) (v : vec3) : vec3 :=
  let '(r0, r1, r2) := m in (np_dot r0 v, np_dot r1 v, np_dot r2 v).

Definition eye3 : mat3 := ((1, 0, 0), (0, 1, 0), (0, 0, 1)).

(** [np.eye(4)] *)
Definition eye4 : mat4 := {| upper3 := eye3; column3 := (0, 0, 0) |}.

(** [T[:3, 3] = c] *)
Definition set_column3 (T : mat4) (c : vec3) : mat4 :=
  {| upper3 := upper3 T; column3 := c |}.

(** Modelled from the spec: [trimesh.transformations.rotation_matrix] is a
    function of the trimesh library and is not part of the repository.  The
    spec describes it as the rotation by [angle] about [direction]; this is
    that rotation in the form the library computes it: the axis is normalised
    first, then [cos a * I + (1 - cos a) * d d^T + sin a * [d]x]. *)
Definition rotation_matrix (angle : R) (direction : vec3) : mat4 :=
  let sina := sin angle in
  let cosa := cos angle in
  let d := vdiv direction (sqrt (np_dot direction direction)) in
  let '(d0, d1, d2) := d in
  {| upper3 :=
       ((cosa + d0 * d0 * (1 - cosa),
         d0 * d1 * (1 - cosa) - d2 * sina,
         d0 * d2 * (1 - cosa) + d1 * sina),
        (d1 * d0 * (1 - cosa) + d2 * sina,
         cosa + d1 * d1 * (1 - cosa),
         d1 * d2 * (1 - cosa) - d0 * sina),
        (d2 * d0 * (1 - cosa) - d1 * sina,
         d2 * d1 * (1 - cosa) + d0 * sina,
         cosa + d2 * d2 * (1 - cosa)));
     column3 := (0, 0, 0) |}.

(** *** The pseudorandom generator

    [rng] is a numpy [Generator].  Its state is threaded explicitly: every
    draw takes the state and returns the value drawn and the next state. *)

Class Generator (G : Type) : Type := {
  (** [np.random.default_rng(seed)] *)
  default_rng : Z -> G;
  (** [rng.uniform(low, high)] *)
  uniform : R -> R -> G -> R * G;
  (** [rng.normal(loc, scale)] *)
  normal : R -> R -> G -> R * G
}.

(** What numpy documents about [uniform]: the sample lies between [low] and
    [high] (the upper end is kept in, as rounding can return it). *)
Class GeneratorRange (G : Type) `{Generator G} : Prop :=
  uniform_range : forall (low high : R) (g : G),
    low <= high -> low <= fst (uniform low high g) <= high.

(** Computations that consume draws. *)
Definition Rand (G A : Type) : Type := G -> A * G.

Definition ret {G A : Type} (a : A) : Rand G A := fun g => (a, g).

Definition bind {G A B : Type} (m : Rand G A) (k : A -> Rand G B) : Rand G B :=
  fun g => let '(a, g') := m g in k a g'.

Notation "x <- m ;; k" := (bind m (fun x => k))
  (at level 61, m at next level, right associativity).
Notation "' pat <- m ;; k" := (bind m (fun x => match x with pat => k end))
  (at level 61, pat pattern, m at next level, right associativity).

(** *** Module constants *)

Definition L_min : R := 5.0.
Definition L_max : R := 15.0.
Definition tilt_std_deg : R := 1.0.
Definition tilt_clip_deg : R := tilt_std_deg * 3.
Definition sections : Z := 24.
Definition subdivide_iter : Z := 2.

(** [rng = np.random.default_rng(42)] *)
Definition rng {G : Type} `{Generator G} : G := default_rng 42.

(** *** [sample_fiber] *)

Definition fiber := (R * vec3 * vec3)%type.

(** Which [return] statement of [sample_fiber] produced the result. *)
Inductive branch : Type := Accepted | Fallback.

(** [lo <= x <= hi] as the chained comparison evaluates it *)
Definition between (lo x hi : R) : bool :=
  if Rle_dec lo x then (if Rle_dec x hi then true else false) else false.

(** Lines 51-64: the unit direction from the azimuth [phi] and the clipped
    [tilt]. *)
Definition tilt_axis (dir_xy : vec3) : vec3 :=
  let z := (0.0, 0.0, 1.0) in
  let axis := np_cross dir_xy z in
  let axis_norm := norm axis in
  if Rlt_dec axis_norm 1e-9 then (1.0, 0.0, 0.0) else vdiv axis axis_norm.

Definition direction (phi tilt : R) : vec3 :=
  let dir_xy := (cos phi, sin phi, 0.0) in
  let axis := tilt_axis dir_xy in
  let Rtilt := rotation_matrix tilt axis in
  let dvec := matvec (upper3 Rtilt) dir_xy in
  vdiv dvec (norm dvec).

(** The test of the rejection loop on one candidate centre [c]. *)
Definition endpoints_inside (sheet_w sheet_d sheet_t half : R) (dvec c : vec3) : bool :=
  let p0 := vsub c (vscale half dvec) in
  let p1 := vadd c (vscale half dvec) in
  between 0.0 (vx p0) sheet_w && between 0.0 (vx p1) sheet_w &&
  between 0.0 (vy p0) sheet_d && between 0.0 (vy p1) sheet_d &&
  between 0.0 (vz p0) sheet_t && between 0.0 (vz p1) sheet_t.

Section Sampler.
Context {G : Type} `{Generator G}.

(** Lines 38-64: the draws for length, azimuth and tilt. *)
Definition draw_shape : Rand G (R * vec3) :=
  L <- uniform L_min L_max ;;
  phi <- uniform 0.0 (2 * PI) ;;
  t <- normal 0.0 (deg2rad tilt_std_deg) ;;
  let tilt := clip t (- deg2rad tilt_clip_deg) (deg2rad tilt_clip_deg) in
  ret (L, direction phi tilt).

(** Lines 68-84: [for _ in range(attempts)] with the [return] inside;
    [Some c] when a candidate is accepted, [None] when the loop runs out. *)
Fixpoint place_center (attempts : nat) (sheet_w sheet_d sheet_t half : R)
  (dvec : vec3) : Rand G (option vec3) :=
  match attempts with
  | O => ret None
  | S attempts' =>
      cx <- uniform 0.0 sheet_w ;;
      cy <- uniform 0.0 sheet_d ;;
      cz <- uniform 0.0 sheet_t ;;
      let c := (cx, cy, cz) in
      if endpoints_inside sheet_w sheet_d sheet_t half dvec c
      then ret (Some c)
      else place_center attempts' sheet_w sheet_d sheet_t half dvec
  end.

(** [sample_fiber(sheet_w, sheet_d, sheet_t)] *)
Definition sample_fiber (sheet_w sheet_d sheet_t : R) : Rand G fiber :=
  '(L, dvec) <- draw_shape ;;
  let half := 0.5 * L in
  r <- place_center 2000 sheet_w sheet_d sheet_t half dvec ;;
  match r with
  | Some c => ret (L, c, dvec)
  | None => ret (L, (sheet_w / 2, sheet_d / 2, sheet_t / 2), dvec)
  end.

(** [sample_fiber] again, with the [return] that fired recorded next to the
    result. *)
Definition sample_fiber_traced (sheet_w sheet_d sheet_t : R)
  : Rand G (branch * fiber) :=
  '(L, dvec) <- draw_shape ;;
  let half := 0.5 * L in
  r <- place_center 2000 sheet_w sheet_d sheet_t half dvec ;;
  match r with
  | Some c => ret (Accepted, (L, c, dvec))
  | None => ret (Fallback, (L, (sheet_w / 2, sheet_d / 2, sheet_t / 2), dvec))
  end.

End Sampler.

(** *** Meshes *)

(** A triangle mesh: a vertex array and a face array of vertex indices. *)
Record Trimesh : Type := {
  vertices : list vec3;
  faces : list (nat * nat * nat)
}.

(** The trimesh functions applied to one cylinder; they belong to the
    library, and nothing below depends on what they compute. *)
Class MeshLib : Type := {
  (** [trimesh.creation.cylinder(radius=, height=, sections=)] *)
  cylinder : R -> R -> Z -> Trimesh;
  (** [mesh.subdivide()] *)
  subdivide : Trimesh -> Trimesh;
  (** [mesh.apply_transform(matrix)] *)
  apply_transform : mat4 -> Trimesh -> Trimesh
}.

Definition empty_mesh : Trimesh := {| vertices := []; faces := [] |}.

Definition shift_face (k : nat) (f : nat * nat * nat) : nat * nat * nat :=
  let '(a, b, c) := f in (a + k, b + k, c + k)%nat.

(** Appending one solid: its faces are offset by the running vertex count. *)
Definition append_mesh (acc m : Trimesh) : Trimesh :=
  {| vertices := vertices acc ++ vertices m;
     faces := faces acc ++ map (shift_face (List.length (vertices acc))) (faces m) |}.

(** Modelled from the spec: the assembler ([assemble] in the spec,
    [trimesh.util.concatenate] in the code) is a function of the trimesh
    library and is not part of the repository.  Following the spec it
    concatenates the vertex and face data of the solids in insertion order and
    offsets each solid's face indices by the running vertex count. *)
Definition concatenate (meshes : list Trimesh) : Trimesh :=
  fold_left append_mesh meshes empty_mesh.

(** Every face of a mesh refers to vertices of that mesh. *)
Definition face_in_range (n : nat) (f : nat * nat * nat) : Prop :=
  let '(a, b, c) := f in (a < n /\ b < n /\ c < n)%nat.

Definition well_formed (m : Trimesh) : Prop :=
  Forall (face_in_range (List.length (vertices m))) (faces m).

(** *** [generate_nanomesh_stl] *)

Section Generation.
Context {G : Type} `{Generator G} `{MeshLib}.

(** Lines 108-135: the solid of one sampled fiber. *)
Definition fiber_solid (fiber_r : R) (f : fiber) : Trimesh :=
  let '(L, c, dvec) := f in
  let cyl := cylinder fiber_r L sections in
  let cyl := Nat.iter (Z.to_nat subdivide_iter) subdivide cyl in
  let z_axis := (0.0, 0.0, 1.0) in
  let axis := np_cross z_axis dvec in
  let axis_len := norm axis in
  let Rm :=
    if Rlt_dec axis_len 1e-9 then
      if Rgt_dec (np_dot z_axis dvec) 0 then eye4
      else rotation_matrix PI (1, 0, 0)
    else
      let axis := vdiv axis axis_len in
      let angle := acos (clip (np_dot z_axis dvec) (-1.0) 1.0) in
      rotation_matrix angle axis in
  let T := set_column3 eye4 c in
  let cyl := apply_transform Rm cyl in
  let cyl := apply_transform T cyl in
  cyl.

(** Lines 105-136: [for _ in range(n_fibers)], appending to [meshes]. *)
Fixpoint fiber_loop (n : nat) (sheet_w sheet_d sheet_t fiber_r : R)
  (meshes : list Trimesh) : Rand G (list Trimesh) :=
  match n with
  | O => ret meshes
  | S n' =>
      f <- sample_fiber sheet_w sheet_d sheet_t ;;
      fiber_loop n' sheet_w sheet_d sheet_t fiber_r (meshes ++ [fiber_solid fiber_r f])
  end.

(** [generate_nanomesh_stl]; the result is the combined mesh that the
    program hands to the STL exporter. *)
Definition generate_nanomesh_stl (sheet_w sheet_d sheet_t fiber_diam : R)
  (fiber_r : option R) (n_fibers : Z) : Rand G Trimesh :=
  let fiber_r := match fiber_r with
                 | None => fiber_diam / 2.0
                 | Some r => r
                 end in
  meshes <- fiber_loop (Z.to_nat n_fibers) sheet_w sheet_d sheet_t fiber_r [] ;;
  ret (concatenate meshes).

(** The fibers that a run of the loop samples, in order. *)
Fixpoint population (n : nat) (sheet_w sheet_d sheet_t : R) : Rand G (list fiber) :=
  match n with
  | O => ret []
  | S n' =>
      f <- sample_fiber sheet_w sheet_d sheet_t ;;
      fs <- population n' sheet_w sheet_d sheet_t ;;
      ret (f :: fs)
  end.

End Generation.

(** *** Notions used to state the properties *)

(** The sheet's bounding box, bounds included. *)
Definition in_box (sheet_w sheet_d sheet_t : R) (p : vec3) : Prop :=
  0 <= vx p <= sheet_w /\ 0 <= vy p <= sheet_d /\ 0 <= vz p <= sheet_t.

(** The candidate centres that [attempts] rounds of the rejection loop draw
    when none of them is accepted. *)
Fixpoint draw_candidates {G : Type} `{Generator G} (attempts : nat)
  (sheet_w sheet_d sheet_t : R) : Rand G (list vec3) :=
  match attempts with
  | O => ret []
  | S attempts' =>
      cx <- uniform 0.0 sheet_w ;;
      cy <- uniform 0.0 sheet_d ;;
      cz <- uniform 0.0 sheet_t ;;
      cs <- draw_candidates attempts' sheet_w sheet_d sheet_t ;;
      ret ((cx, cy, cz) :: cs)
  end.

(** Two runs, each with a generator of its own, came out the same: they
    returned the same value and left their generators in like states. *)
Definition same_outcome {G1 G2 A : Type} (alike : G1 -> G2 -> Prop)
  (r1 : A * G1) (r2 : A * G2) : Prop :=
  fst r1 = fst r2 /\ alike (snd r1) (snd r2).

(** The radius the program uses for the cylinders. *)
Definition radius_used (fiber_diam : R) (fiber_r : option R) : R :=
  match fiber_r with
  | None => fiber_diam / 2.0
  | Some r => r
  end.

(** *** A concrete generator

    The generator that returns the middle of the interval for every uniform
    draw and the mean for every normal draw.  It meets the range contract and
    makes both return paths of [sample_fiber] observable: a default sheet
    accepts the first candidate, a sheet narrower than the fiber accepts
    none. *)

Definition midpoint : Generator unit :=
  {| default_rng := fun _ => tt;
     uniform := fun low high g => ((low + high) / 2, g);
     normal := fun loc scale g => (loc, g) |}.

(** *** Two generators with a state

    A linear congruential generator, and the same generator kept in a state
    that also counts the draws made.  They stand for two generator objects
    created from one seed; the normal draw is a crude stand-in, only its
    dependence on the state matters here. *)

Definition lcg_modulus : Z := 2147483648.

Definition lcg_next (s : Z) : Z := ((1103515245 * s + 12345) mod lcg_modulus)%Z.

(** The state read as a number in [[0, 1)]. *)
Definition lcg_fraction (s : Z) : R := IZR s / IZR lcg_modulus.

Definition lcg : Generator Z :=
  {| default_rng := fun seed => (seed mod lcg_modulus)%Z;
     uniform := fun low high s => (low + (high - low) * lcg_fraction s, lcg_next s);
     normal := fun loc scale s => (loc + scale * (2 * lcg_fraction s - 1), lcg_next s) |}.

Definition lcg_counting : Generator (Z * nat) :=
  {| default_rng := fun seed => ((seed mod lcg_modulus)%Z, O);
     uniform := fun low high '(s, n) =>
       (low + (high - low) * lcg_fraction s, (lcg_next s, S n));
     normal := fun loc scale '(s, n) =>
       (loc + scale * (2 * lcg_fraction s - 1), (lcg_next s, S n)) |}.

(** The two are in corresponding states when the congruential parts agree. *)
Definition lcg_alike (s : Z) (c : Z * nat) : Prop := s = fst c.

(** A mesh library with no geometry, enough to run the generation loop. *)
Definition blank_meshes : MeshLib :=
  {| cylinder := fun _ _ _ => empty_mesh;
     subdivide := fun m => m;
     apply_transform := fun _ m => m |}.

(** *** The rigid transform of one fiber *)

(** Lines 115-128 of [generate_nanomesh_stl]: the matrix [R] that turns the
    cylinder axis towards [dvec]. *)
Definition fiber_rotation (dvec : vec3) : mat4 :=
  let z_axis := (0.0, 0.0, 1.0) in
  let axis := np_cross z_axis dvec in
  let axis_len := norm axis in
  if Rlt_dec axis_len 1e-9 then
    if Rgt_dec (np_dot z_axis dvec) 0 then eye4
    else rotation_matrix PI (1, 0, 0)
  else
    let axis := vdiv axis axis_len in
    let angle := acos (clip (np_dot z_axis dvec) (-1.0) 1.0) in
    rotation_matrix angle axis.

(** Lines 131-132: the matrix [T] that moves the origin to [c]. *)
Definition fiber_translation (c : vec3) : mat4 := set_column3 eye4 c.

(** What a homogeneous matrix does to a point: [(M @ (x, y, z, 1))[:3]]. *)
Definition transform_point (M : mat4) (v : vec3) : vec3 :=
  vadd (matvec (upper3 M) v) (column3 M).

End Nanomesh.

(* ================================================================== *)
(** * Part II.  Properties of the comb outline builder                 *)
(* ================================================================== *)

Module CombProps.
Import Comb.

(** ** Sorting *)

Lemma insort_length (x : R) (l : list R) :
  List.length (insort x l) = S (List.length l).
Proof.
  induction l as [|y l IH]; simpl; [reflexivity|].
  destruct (Rlt_dec y x); simpl; congruence.
Qed.

Lemma sorted_length (l : list R) : List.length (sorted l) = List.length l.
Proof.
  induction l as [|x l IH]; [reflexivity|].
  change (sorted (x :: l)) with (insort x (sorted l)).
  rewrite insort_length, IH. reflexivity.
Qed.

Lemma insort_perm (x : R) (l : list R) : Permutation (x :: l) (insort x l).
Proof.
  induction l as [|y l IH]; simpl; [apply Permutation_refl|].
  destruct (Rlt_dec y x).
  - apply perm_trans with (y :: x :: l); [apply perm_swap|].
    now apply perm_skip.
  - apply Permutation_refl.
Qed.

Lemma sorted_perm (l : list R) : Permutation l (sorted l).
Proof.
  induction l as [|x l IH]; [apply perm_nil|].
  change (sorted (x :: l)) with (insort x (sorted l)).
  apply perm_trans with (x :: sorted l); [now apply perm_skip|].
  apply insort_perm.
Qed.

Lemma sorted_In (l : list R) (x : R) : In x (sorted l) <-> In x l.
Proof.
  split; intro Hin.
  - eapply Permutation_in; [apply Permutation_sym, sorted_perm | exact Hin].
  - eapply Permutation_in; [apply sorted_perm | exact Hin].
Qed.

(** ** Counting the indices of each parity in [range N] *)

Lemma is_even_odd (i : Z) : is_odd i = negb (is_even i).
Proof. reflexivity. Qed.

Lemma parity_count (n : nat) :
  Z.of_nat (List.length (filter is_even (map Z.of_nat (seq 0 n))))
    = ((Z.of_nat n + 1) / 2)%Z /\
  Z.of_nat (List.length (filter is_odd (map Z.of_nat (seq 0 n))))
    = (Z.of_nat n / 2)%Z.
Proof.
  induction n as [|n [IHe IHo]].
  - split; reflexivity.
  - rewrite seq_S, map_app, !filter_app, !length_app, !Nat2Z.inj_add, IHe, IHo.
    rewrite Nat2Z.inj_succ. change (0 + n)%nat with n.
    cbn [map filter]. rewrite is_even_odd.
    assert (Hpar : is_even (Z.of_nat n) = true /\ (Z.of_nat n mod 2 = 0)%Z \/
                   is_even (Z.of_nat n) = false /\ (Z.of_nat n mod 2 = 1)%Z).
    { unfold is_even. destruct (Z.eqb_spec (Z.of_nat n mod 2) 0) as [E|E].
      - left; auto.
      - right; split; [reflexivity|].
        pose proof (Z.mod_pos_bound (Z.of_nat n) 2 ltac:(lia)). lia. }
    destruct Hpar as [[-> E]|[-> E]]; cbn [negb List.length Z.of_nat];
      split; Z.to_euclidean_division_equations; lia.
Qed.

Lemma range_In (N i : Z) : In i (range N) <-> (0 <= i < N)%Z.
Proof.
  unfold range. rewrite in_map_iff. split.
  - intros [k [<- Hk]]. apply in_seq in Hk. lia.
  - intros Hi. exists (Z.to_nat i). split; [lia|]. apply in_seq. lia.
Qed.

(** ** Paths as chains of edges *)

Lemma last_cons (a b : point) (l : list point) : last (b :: l) a = last l b.
Proof.
  revert a b. induction l as [|c l IH]; intros a b; [reflexivity|].
  change (last (b :: c :: l) a) with (last (c :: l) a).
  now rewrite (IH a c), (IH b c).
Qed.

Lemma chain_snoc (P : point -> point -> Prop) (a : point) (l : list point) (x : point) :
  chain P a l -> P (last l a) x -> chain P a (l ++ [x]).
Proof.
  revert a. induction l as [|b l IH]; intros a Hc Hx.
  - simpl in *. auto.
  - destruct Hc as [Hab Hc]. split; [exact Hab|].
    apply IH; [exact Hc|]. now rewrite <- (last_cons a).
Qed.

Lemma chain_path_edges (P : point -> point -> Prop) (a : point) (l : list point) :
  chain P a l -> forall e, In e (path_edges (a :: l)) -> P (fst e) (snd e).
Proof.
  revert a. induction l as [|b l IH]; intros a Hc e He.
  - destruct He.
  - destruct Hc as [Hab Hc]. destruct He as [<-|He]; [exact Hab|].
    now apply (IH b).
Qed.

(** A closed loop all of whose edges, the closing one included, satisfy [P]
    keeps each of its boundary points on an edge satisfying [P]. *)
Lemma on_loop_edge (P : point -> point -> Prop) (a : point) (l : list point) (p : point) :
  chain P a (l ++ [a]) -> on_loop (a :: l) p ->
  exists u v, P u v /\ on_segment u v p.
Proof.
  intros Hc [e [He Hseg]]. exists (fst e), (snd e). split; [|exact Hseg].
  apply (chain_path_edges P a (l ++ [a]) Hc). exact He.
Qed.

(** ** Sorting a list that is already in order *)

Lemma sorted_already (l : list R) : StronglySorted Rle l -> sorted l = l.
Proof.
  induction 1 as [|x l Hs IH Hx]; [reflexivity|].
  change (sorted (x :: l)) with (insort x (sorted l)). rewrite IH.
  destruct l as [|y l]; [reflexivity|]. simpl.
  apply Forall_inv in Hx.
  destruct (Rlt_dec y x); [lra | reflexivity].
Qed.

Lemma insort_reverse_least (x : R) (l : list R) :
  Forall (fun y => x < y) l -> insort_reverse x l = l ++ [x].
Proof.
  induction 1 as [|y l Hy Hl IH]; [reflexivity|]. simpl.
  destruct (Rlt_dec x y); [now rewrite IH | contradiction].
Qed.

Lemma sorted_reverse_ascending (l : list R) :
  StronglySorted Rlt l -> sorted_reverse l = rev l.
Proof.
  induction 1 as [|x l Hs IH Hx]; [reflexivity|].
  change (sorted_reverse (x :: l)) with (insort_reverse x (sorted_reverse l)).
  rewrite IH. simpl. apply insort_reverse_least.
  apply Forall_forall. intros y Hy. apply in_rev in Hy.
  rewrite Forall_forall in Hx. now apply Hx.
Qed.

(** ** The indices of one parity, in increasing order *)

Lemma StronglySorted_filter {A : Type} (Rel : A -> A -> Prop) (f : A -> bool) (l : list A) :
  StronglySorted Rel l -> StronglySorted Rel (filter f l).
Proof.
  induction 1 as [|x l Hs IH Hx]; simpl; [constructor|].
  destruct (f x); [|exact IH]. constructor; [exact IH|].
  apply Forall_forall. intros y Hy. apply filter_In in Hy as [Hy _].
  rewrite Forall_forall in Hx. now apply Hx.
Qed.

Lemma range_increasing (N : Z) : StronglySorted Z.lt (range N).
Proof.
  unfold range. generalize (Z.to_nat N) as n. intro n.
  generalize 0%nat as a. induction n as [|n IH]; intro a; simpl; constructor.
  - apply IH.
  - apply Forall_forall. intros y Hy. apply in_map_iff in Hy as [k [<- Hk]].
    apply in_seq in Hk. lia.
Qed.

(** Baselines of increasing non-negative indices are at least one pitch
    apart and start at [y0] or above. *)
Lemma baselines_spaced (y0 pitch : R) (N : Z) (f : Z -> bool) :
  0 <= pitch ->
  StronglySorted (fun a b => a + pitch <= b)
    (map (fun i => y0 + IZR i * pitch) (filter f (range N))) /\
  Forall (fun fy => y0 <= fy)
    (map (fun i => y0 + IZR i * pitch) (filter f (range N))).
Proof.
  intros Hp.
  assert (Hs : StronglySorted Z.lt (filter f (range N)))
    by apply StronglySorted_filter, range_increasing.
  assert (Hpos : Forall (fun i => (0 <= i)%Z) (filter f (range N))).
  { apply Forall_forall. intros i Hi. apply filter_In in Hi as [Hi _].
    apply range_In in Hi. lia. }
  induction Hs as [|i l Hs IH Hi]; simpl; [split; constructor|].
  apply Forall_cons_iff in Hpos as [Hi0 Hpos].
  destruct (IH Hpos) as [IH1 IH2]. split.
  - constructor; [exact IH1|]. apply Forall_forall. intros fy Hfy.
    apply in_map_iff in Hfy as [j [<- Hj]].
    rewrite Forall_forall in Hi. specialize (Hi j Hj).
    assert (IZR i + 1 <= IZR j) by (rewrite <- plus_IZR; apply IZR_le; lia).
    nra.
  - constructor; [|exact IH2].
    assert (0 <= IZR i) by (apply IZR_le; lia). nra.
Qed.

(** ** The two outlines stay inside their electrodes *)

Section Outlines.
Variables w L B : R.
Hypothesis Hw : 0 <= w.
Hypothesis HL : 0 <= L.
Hypothesis HB : 0 <= B.

Lemma edge_e1_segment (F : R -> Prop) (a b p : point) :
  edge_e1 w L B F a b -> on_segment a b p -> in_e1 w L B F p.
Proof.
  intros He (t & Ht & Hx & Hy).
  destruct He as [[Ha Hb]|(fy & Hf & (Hax & Hay) & (Hbx & Hby))].
  - left. rewrite Hx. nra.
  - right. exists fy. split; [exact Hf|]. rewrite Hx, Hy. nra.
Qed.

Lemma edge_e2_segment (xr : R) (F : R -> Prop) (a b p : point) :
  edge_e2 w L xr F a b -> on_segment a b p -> in_e2 w L xr F p.
Proof.
  intros He (t & Ht & Hx & Hy).
  destruct He as [[Ha Hb]|(fy & Hf & (Hax & Hay) & (Hbx & Hby))].
  - left. rewrite Hx. nra.
  - right. exists fy. split; [exact Hf|]. rewrite Hx, Hy. nra.
Qed.

(** Invariant of the E1 loop: the path so far has only edges of E1 and
    ends on the busbar edge at height [cur_y]. *)
Lemma e1_loop_chain (F : R -> Prop) (a0 : point) (fingers : list R) :
  Forall F fingers ->
  forall (rest : list point) (cur_y : R),
    ascending_from w cur_y fingers ->
    chain (edge_e1 w L B F) a0 rest ->
    last rest a0 = (x_left_bus + B, cur_y) ->
    exists rest' cur_y',
      e1_loop w L B fingers (a0 :: rest) cur_y = (a0 :: rest', cur_y') /\
      chain (edge_e1 w L B F) a0 rest' /\
      last rest' a0 = (x_left_bus + B, cur_y').
Proof.
  unfold x_left_bus.
  induction 1 as [|fy fingers HF HFs IH]; intros rest cur_y Hasc Hc Hlast.
  - exists rest, cur_y. simpl. auto.
  - destruct Hasc as [Hcur Hasc]. simpl e1_loop.
    destruct (Rgt_dec fy cur_y) as [Hgt|Hngt].
    + apply (IH (((((rest ++ [(0.0 + B, fy)]) ++ [(0.0 + B + L, fy)])
                    ++ [(0.0 + B + L, fy + w)]) ++ [(0.0 + B, fy + w)]))
                (fy + w) Hasc).
      * repeat apply chain_snoc; rewrite ?last_last; try exact Hc.
        -- rewrite Hlast. left. simpl. lra.
        -- right. exists fy. simpl. repeat split; auto; lra.
        -- right. exists fy. simpl. repeat split; auto; lra.
        -- right. exists fy. simpl. repeat split; auto; lra.
      * now rewrite last_last.
    + apply (IH ((((rest ++ [(0.0 + B + L, fy)])
                    ++ [(0.0 + B + L, fy + w)]) ++ [(0.0 + B, fy + w)]))
                (fy + w) Hasc).
      * repeat apply chain_snoc; rewrite ?last_last; try exact Hc.
        -- rewrite Hlast. right. exists fy. simpl. repeat split; auto; lra.
        -- right. exists fy. simpl. repeat split; auto; lra.
        -- right. exists fy. simpl. repeat split; auto; lra.
      * now rewrite last_last.
Qed.

(** The E1 outline, closing edge included, has only edges of E1. *)
Lemma e1_outline_chain (F : R -> Prop) (H : R) (fingers : list R) :
  Forall F fingers ->
  ascending_from w 0.0 fingers ->
  exists rest,
    e1_outline w L B H fingers = (x_left_bus, 0.0) :: rest /\
    chain (edge_e1 w L B F) (x_left_bus, 0.0) (rest ++ [(x_left_bus, 0.0)]).
Proof.
  intros HF Hasc. unfold e1_outline. cbv zeta.
  destruct (e1_loop_chain F (x_left_bus, 0.0) fingers HF
              [(x_left_bus + B, 0.0)] 0.0 Hasc)
    as (rest & cur_y & Hloop & Hc & Hlast).
  { simpl. split; [|exact I]. left. unfold x_left_bus. simpl. lra. }
  { reflexivity. }
  setoid_rewrite Hloop. unfold x_left_bus in *.
  destruct (Rgt_dec H cur_y).
  - exists ((rest ++ [(0.0 + B, H)]) ++ [(0.0, H)]). split; [reflexivity|].
    repeat apply chain_snoc; rewrite ?last_last; try exact Hc.
    + rewrite Hlast. left. simpl. lra.
    + left. simpl. lra.
    + left. simpl. lra.
  - exists (rest ++ [(0.0, H)]). split; [reflexivity|].
    repeat apply chain_snoc; rewrite ?last_last; try exact Hc.
    + rewrite Hlast. left. simpl. lra.
    + left. simpl. lra.
Qed.

(** Invariant of the E2 loop: the path so far has only edges of E2 and
    ends on the busbar edge at height [cur_y]. *)
Lemma e2_loop_chain (xr : R) (F : R -> Prop) (a0 : point) (fingers : list R) :
  Forall F fingers ->
  forall (rest : list point) (cur_y : R),
    descending_from w cur_y fingers ->
    chain (edge_e2 w L xr F) a0 rest ->
    last rest a0 = (xr, cur_y) ->
    exists rest' cur_y',
      e2_loop w L xr fingers (a0 :: rest) cur_y = (a0 :: rest', cur_y') /\
      chain (edge_e2 w L xr F) a0 rest' /\
      last rest' a0 = (xr, cur_y').
Proof.
  induction 1 as [|fy fingers HF HFs IH]; intros rest cur_y Hdesc Hc Hlast.
  - exists rest, cur_y. simpl. auto.
  - destruct Hdesc as [Hcur Hdesc]. simpl e2_loop.
    destruct (Rlt_dec (fy + w) cur_y) as [Hlt|Hnlt].
    + apply (IH (((((rest ++ [(xr, fy + w)]) ++ [(xr - L, fy + w)])
                    ++ [(xr - L, fy)]) ++ [(xr, fy)]))
                fy Hdesc).
      * repeat apply chain_snoc; rewrite ?last_last; try exact Hc.
        -- rewrite Hlast. left. simpl. lra.
        -- right. exists fy. simpl. repeat split; auto; lra.
        -- right. exists fy. simpl. repeat split; auto; lra.
        -- right. exists fy. simpl. repeat split; auto; lra.
      * now rewrite last_last.
    + apply (IH ((((rest ++ [(xr - L, fy + w)])
                    ++ [(xr - L, fy)]) ++ [(xr, fy)]))
                fy Hdesc).
      * repeat apply chain_snoc; rewrite ?last_last; try exact Hc.
        -- rewrite Hlast. right. exists fy. simpl. repeat split; auto; lra.
        -- right. exists fy. simpl. repeat split; auto; lra.
        -- right. exists fy. simpl. repeat split; auto; lra.
      * now rewrite last_last.
Qed.

(** The E2 outline, closing edge included, has only edges of E2. *)
Lemma e2_outline_chain (xr : R) (F : R -> Prop) (H : R) (fingers : list R) :
  Forall F fingers ->
  descending_from w H (sorted_reverse fingers) ->
  exists rest,
    e2_outline w L B H xr fingers = (xr + B, 0.0) :: rest /\
    chain (edge_e2 w L xr F) (xr + B, 0.0) (rest ++ [(xr + B, 0.0)]).
Proof.
  intros HF Hdesc. unfold e2_outline. cbv zeta.
  assert (HF' : Forall F (sorted_reverse fingers)).
  { clear Hdesc. induction HF as [|x l Hx Hl IH]; [constructor|].
    change (sorted_reverse (x :: l)) with (insort_reverse x (sorted_reverse l)).
    induction IH as [|y l' Hy Hl' IH']; simpl; [auto|].
    destruct (Rlt_dec x y); auto. }
  destruct (e2_loop_chain xr F (xr + B, 0.0) (sorted_reverse fingers) HF'
              [(xr + B, H); (xr, H)] H Hdesc)
    as (rest & cur_y & Hloop & Hc & Hlast).
  { simpl. repeat split; left; simpl; lra. }
  { reflexivity. }
  setoid_rewrite Hloop.
  destruct (Rgt_dec cur_y 0.0).
  - exists (rest ++ [(xr, 0.0)]). split; [reflexivity|].
    repeat apply chain_snoc; rewrite ?last_last; try exact Hc.
    + rewrite Hlast. left. simpl. lra.
    + left. simpl. lra.
  - exists rest. split; [reflexivity|].
    apply chain_snoc; [exact Hc|].
    rewrite Hlast. left. simpl. lra.
Qed.

End Outlines.

(** ** From spaced baselines to the loop preconditions *)

Lemma StronglySorted_weaken {A : Type} (P Q : A -> A -> Prop) (l : list A) :
  (forall a b, P a b -> Q a b) -> StronglySorted P l -> StronglySorted Q l.
Proof.
  intros HPQ. induction 1 as [|x l Hs IH Hx]; constructor; [exact IH|].
  eapply Forall_impl; [|exact Hx]. intros b. apply HPQ.
Qed.

Lemma StronglySorted_snoc {A : Type} (P : A -> A -> Prop) (l : list A) (x : A) :
  StronglySorted P l -> Forall (fun y => P y x) l -> StronglySorted P (l ++ [x]).
Proof.
  induction 1 as [|y l Hs IH Hy]; intros Hx; simpl.
  - repeat constructor.
  - apply Forall_cons_iff in Hx as [Hyx Hx]. constructor; [now apply IH|].
    apply Forall_app. split; [exact Hy|]. now constructor.
Qed.

Lemma StronglySorted_rev {A : Type} (P : A -> A -> Prop) (l : list A) :
  StronglySorted P l -> StronglySorted (fun a b => P b a) (rev l).
Proof.
  induction 1 as [|x l Hs IH Hx]; simpl; [constructor|].
  apply StronglySorted_snoc; [exact IH|].
  apply Forall_forall. intros y Hy. apply in_rev in Hy.
  rewrite Forall_forall in Hx. now apply Hx.
Qed.

Lemma ascending_from_spaced (w pitch cur : R) (l : list R) :
  w <= pitch ->
  StronglySorted (fun a b => a + pitch <= b) l ->
  Forall (fun fy => cur <= fy) l ->
  ascending_from w cur l.
Proof.
  intros Hwp Hs. revert cur. induction Hs as [|x l Hs IH Hx]; intros cur Hcur.
  - exact I.
  - apply Forall_cons_iff in Hcur as [Hc _]. split; [exact Hc|].
    apply IH. eapply Forall_impl; [|exact Hx]. simpl. intros; lra.
Qed.

Lemma descending_from_spaced (w pitch cur : R) (l : list R) :
  w <= pitch ->
  StronglySorted (fun a b => b + pitch <= a) l ->
  Forall (fun fy => fy + w <= cur) l ->
  descending_from w cur l.
Proof.
  intros Hwp Hs. revert cur. induction Hs as [|x l Hs IH Hx]; intros cur Hcur.
  - exact I.
  - apply Forall_cons_iff in Hcur as [Hc _]. split; [exact Hc|].
    apply IH. eapply Forall_impl; [|exact Hx]. simpl. intros; lra.
Qed.

(** ** Which baselines each electrode is handed *)

Lemma e1_fingers_In (y0 pitch : R) (N : Z) (fy : R) :
  In fy (e1_fingers y0 pitch N) <->
  exists i, (0 <= i < N)%Z /\ (i mod 2 = 0)%Z /\ fy = y0 + IZR i * pitch.
Proof.
  unfold e1_fingers. rewrite sorted_In, in_map_iff. split.
  - intros [i [<- Hi]]. apply filter_In in Hi as [Hr He].
    apply range_In in Hr. exists i. unfold is_even in He.
    apply Z.eqb_eq in He. auto.
  - intros [i [Hr [He ->]]]. exists i. split; [reflexivity|].
    apply filter_In. split; [now apply range_In|].
    unfold is_even. now apply Z.eqb_eq.
Qed.

Lemma e2_fingers_In (y0 pitch : R) (N : Z) (fy : R) :
  In fy (e2_fingers y0 pitch N) <->
  exists i, (0 <= i < N)%Z /\ (i mod 2 <> 0)%Z /\ fy = y0 + IZR i * pitch.
Proof.
  unfold e2_fingers. rewrite sorted_In, in_map_iff. split.
  - intros [i [<- Hi]]. apply filter_In in Hi as [Hr He].
    apply range_In in Hr. exists i. unfold is_odd in He.
    apply negb_true_iff, Z.eqb_neq in He. auto.
  - intros [i [Hr [He ->]]]. exists i. split; [reflexivity|].
    apply filter_In. split; [now apply range_In|].
    unfold is_odd. now apply negb_true_iff, Z.eqb_neq.
Qed.

(** ** The index lists on a small input *)

Example range_five : range 5 = [0; 1; 2; 3; 4]%Z.
Proof. reflexivity. Qed.

Example range_negative : range (-3) = [].
Proof. reflexivity. Qed.

Example even_indices_five : filter is_even (range 5) = [0; 2; 4]%Z.
Proof. reflexivity. Qed.

Example odd_indices_five : filter is_odd (range 5) = [1; 3]%Z.
Proof. reflexivity. Qed.

(** ** Two outlines traced by hand *)

Ltac decide_comparisons :=
  repeat match goal with
    | |- context [Rlt_dec ?a ?b] => destruct (Rlt_dec a b); try lra
    | |- context [Rgt_dec ?a ?b] => destruct (Rgt_dec a b); try lra
    end.

Ltac same_points :=
  cbn [app]; repeat first [ lra | reflexivity | apply f_equal2 ].

(** Two fingers, no margins: the first finger of each electrode starts flush
    with the end of its busbar, so neither loop repeats the corner. *)
Example build_geometry_two_fingers :
  build_geometry 1.0 1.0 10.0 2 5.0 0.0 0.0
    = ([("E1"%string,
         [(0, 0); (5, 0); (15, 0); (15, 1); (5, 1); (5, 3); (0, 3)]);
        ("E2"%string,
         [(21, 0); (21, 3); (16, 3); (6, 3); (6, 2); (16, 2); (16, 0)])],
       21, 3).
Proof.
  unfold build_geometry, e1_outline, e2_outline, e1_fingers, e2_fingers, range.
  simpl. decide_comparisons. unfold x_left_bus. same_points.
Qed.

(** Three fingers above a bottom margin: both loops step along the busbar
    before each finger, and E1 ends flush with the top. *)
Example build_geometry_three_fingers :
  build_geometry 1.0 1.0 10.0 3 5.0 0.0 10.0
    = ([("E1"%string,
         [(0, 0); (5, 0); (5, 10); (15, 10); (15, 11); (5, 11);
          (5, 14); (15, 14); (15, 15); (5, 15); (0, 15)]);
        ("E2"%string,
         [(21, 0); (21, 15); (16, 15); (16, 13); (6, 13); (6, 12); (16, 12);
          (16, 0)])],
       21, 15).
Proof.
  unfold build_geometry, e1_outline, e2_outline, e1_fingers, e2_fingers, range.
  simpl. decide_comparisons. simpl. decide_comparisons.
  unfold x_left_bus. same_points.
Qed.

(** ** Size of the drawing and assignment of the fingers *)

(** C3.  [build_geometry] returns [total_width = B + L + g + B] and
    [total_height = margin_bottom + (N * (w + g) - g) + margin_top] for all
    inputs, and on [w=1.0, g=1.0, L=10.0, N=10, B=5.0, margin_top=0.0,
    margin_bottom=10.0] it returns width [21.0] and height [29.0]. *)
Theorem build_geometry_size :
  (forall (w g L : R) (N : Z) (B margin_top margin_bottom : R),
      snd (fst (build_geometry w g L N B margin_top margin_bottom))
        = B + L + g + B /\
      snd (build_geometry w g L N B margin_top margin_bottom)
        = margin_bottom + (IZR N * (w + g) - g) + margin_top) /\
  snd (fst (build_geometry 1.0 1.0 10.0 10 5.0 0.0 10.0)) = 21.0 /\
  snd (build_geometry 1.0 1.0 10.0 10 5.0 0.0 10.0) = 29.0.
Proof.
  split; [intros; split; reflexivity|].
  unfold build_geometry; simpl. split; lra.
Qed.

(** C7.  For every finger count [N >= 1], [build_geometry] splits the
    fingers by the parity of their index in [range(N)]: the baselines it
    hands to the E1 outline are exactly the values [margin_bottom + i * pitch]
    for even [i], those it hands to the E2 outline the ones for odd [i]; E1
    gets [ceil(N/2)] of them and E2 [floor(N/2)]. *)
Theorem finger_assignment (w g L : R) (N : Z) (B margin_top margin_bottom : R) :
  (1 <= N)%Z ->
  let pitch := w + g in
  let H := margin_bottom + (IZR N * pitch - g) + margin_top in
  let e1 := e1_fingers margin_bottom pitch N in
  let e2 := e2_fingers margin_bottom pitch N in
  fst (fst (build_geometry w g L N B margin_top margin_bottom))
    = [("E1"%string, e1_outline w L B H e1);
       ("E2"%string, e2_outline w L B H (B + L + g) e2)] /\
  Permutation e1
    (map (fun i => margin_bottom + IZR i * pitch) (filter is_even (range N))) /\
  Permutation e2
    (map (fun i => margin_bottom + IZR i * pitch) (filter is_odd (range N))) /\
  (forall fy, In fy e1 <->
     exists i, (0 <= i < N)%Z /\ (i mod 2 = 0)%Z /\
               fy = margin_bottom + IZR i * pitch) /\
  (forall fy, In fy e2 <->
     exists i, (0 <= i < N)%Z /\ (i mod 2 <> 0)%Z /\
               fy = margin_bottom + IZR i * pitch) /\
  Z.of_nat (List.length e1) = ((N + 1) / 2)%Z /\
  Z.of_nat (List.length e2) = (N / 2)%Z.
Proof.
  intros HN pitch H e1 e2. split; [reflexivity|].
  split; [apply Permutation_sym, sorted_perm|].
  split; [apply Permutation_sym, sorted_perm|].
  split; [intro fy; apply e1_fingers_In|].
  split; [intro fy; apply e2_fingers_In|].
  unfold e1, e2, e1_fingers, e2_fingers, range.
  rewrite !sorted_length, !length_map.
  rewrite (proj1 (parity_count (Z.to_nat N))), (proj2 (parity_count (Z.to_nat N))).
  split; f_equal; lia.
Qed.

Lemma finger_assignment_witness :
  (1 <= 3)%Z /\
  Z.of_nat (List.length (e1_fingers 10.0 (1.0 + 1.0) 3)) = ((3 + 1) / 2)%Z /\
  Z.of_nat (List.length (e2_fingers 10.0 (1.0 + 1.0) 3)) = (3 / 2)%Z.
Proof.
  split; [lia|].
  exact (proj2 (proj2 (proj2 (proj2 (proj2
           (finger_assignment 1.0 1.0 10.0 3 5.0 0.0 10.0 ltac:(lia))))))).
Defined.

(** With a non-negative pitch the generator expressions already produce the
    baselines bottom-up, so [sorted] leaves them in place. *)
Lemma fingers_in_order (y0 pitch : R) (N : Z) (f : Z -> bool) :
  0 <= pitch ->
  sorted (map (fun i => y0 + IZR i * pitch) (filter f (range N)))
    = map (fun i => y0 + IZR i * pitch) (filter f (range N)).
Proof.
  intros Hp. apply sorted_already.
  apply StronglySorted_weaken with (P := fun a b => a + pitch <= b).
  - intros a b Hab. lra.
  - now apply baselines_spaced.
Qed.

(** ** Distance between the two regions *)

Lemma dist_axis (g : R) (p q : point) :
  0 <= g ->
  g <= fst q - fst p \/ g <= snd q - snd p \/ g <= snd p - snd q ->
  g <= dist p q.
Proof.
  intros Hg Hsep. unfold dist.
  rewrite <- (sqrt_square g Hg) at 1. apply sqrt_le_1_alt.
  set (dx := fst p - fst q). set (dy := snd p - snd q).
  assert (Hdx : 0 <= dx * dx) by nra.
  assert (Hdy : 0 <= dy * dy) by nra.
  destruct Hsep as [Hx|[Hy|Hy]].
  - assert (g * g <= dx * dx) by (unfold dx; nra). lra.
  - assert (g * g <= dy * dy) by (unfold dy; nra). lra.
  - assert (g * g <= dy * dy) by (unfold dy; nra). lra.
Qed.

(** The first point of an outline lies on its loop. *)
Lemma first_point_on_loop (a : point) (l : list point) : on_loop (a :: l) a.
Proof.
  unfold on_loop, loop_edges.
  assert (Hne : exists b l', (a :: l) ++ [a] = a :: b :: l').
  { destruct l as [|b l]; simpl; eauto. }
  destruct Hne as (b & l' & ->). exists (a, b). split; [now left|].
  exists 0. simpl. repeat split; lra.
Qed.


(** Both loops only append, so each outline starts at its first corner. *)
Lemma e1_loop_head (w L B : R) (fingers : list R) :
  forall (a0 : point) (rest : list point) (cur_y : R),
  exists rest', fst (e1_loop w L B fingers (a0 :: rest) cur_y) = a0 :: rest'.
Proof.
  induction fingers as [|fy fingers IH]; intros a0 rest cur_y; simpl.
  - eauto.
  - destruct (Rgt_dec fy cur_y); apply IH.
Qed.

Lemma e1_outline_head (w L B H : R) (fingers : list R) :
  exists rest, e1_outline w L B H fingers = (x_left_bus, 0.0) :: rest.
Proof.
  unfold e1_outline. cbv zeta.
  destruct (e1_loop_head w L B fingers (x_left_bus, 0.0) [(x_left_bus + B, 0.0)] 0.0)
    as [rest Hrest].
  destruct (e1_loop w L B fingers _ 0.0) as [pts cur_y]. simpl in Hrest. subst pts.
  destruct (Rgt_dec H cur_y); simpl; eauto.
Qed.

Lemma e2_loop_head (w L xr : R) (fingers : list R) :
  forall (a0 : point) (rest : list point) (cur_y : R),
  exists rest', fst (e2_loop w L xr fingers (a0 :: rest) cur_y) = a0 :: rest'.
Proof.
  induction fingers as [|fy fingers IH]; intros a0 rest cur_y; simpl.
  - eauto.
  - destruct (Rlt_dec (fy + w) cur_y); apply IH.
Qed.

Lemma e2_outline_head (w L B H xr : R) (fingers : list R) :
  exists rest, e2_outline w L B H xr fingers = (xr + B, 0.0) :: rest.
Proof.
  unfold e2_outline. cbv zeta.
  destruct (e2_loop_head w L xr (sorted_reverse fingers) (xr + B, 0.0)
              [(xr + B, H); (xr, H)] H) as [rest Hrest].
  destruct (e2_loop w L xr _ _ H) as [pts cur_y]. simpl in Hrest. subst pts.
  destruct (Rgt_dec cur_y 0.0); simpl; eauto.
Qed.


End CombProps.

(* ================================================================== *)
(** * Part III.  Properties of the fiber sampler and the mesh assembly *)
(* ================================================================== *)

Module NanomeshProps.
Import Nanomesh.

(** ** Real-number facts *)

Lemma sin_cos_square (x : R) : sin x * sin x + cos x * cos x = 1.
Proof. exact (sin2_cos2 x). Qed.

Lemma clip_bounds (a lo hi : R) : lo <= hi -> lo <= clip a lo hi <= hi.
Proof.
  intros Hlh. unfold clip, Rmin, Rmax.
  destruct (Rle_dec a lo); destruct (Rle_dec hi _); lra.
Qed.

Lemma between_true (lo x hi : R) : between lo x hi = true <-> lo <= x <= hi.
Proof.
  unfold between.
  destruct (Rle_dec lo x); destruct (Rle_dec x hi); split; intros;
    try discriminate; try reflexivity; lra.
Qed.

(** ** The direction vector in closed form *)

(** The cross product of the azimuth direction with the vertical axis. *)
Lemma cross_azimuth (phi : R) :
  np_cross (cos phi, sin phi, 0.0) (0.0, 0.0, 1.0) = (sin phi, - cos phi, 0).
Proof.
  unfold np_cross, vx, vy, vz; simpl. f_equal; [f_equal|]; lra.
Qed.

Lemma norm_cross_azimuth (phi : R) :
  norm (np_cross (cos phi, sin phi, 0.0) (0.0, 0.0, 1.0)) = 1.
Proof.
  rewrite cross_azimuth. unfold norm, vx, vy, vz; simpl.
  replace (sin phi * sin phi + - cos phi * - cos phi + 0 * 0) with 1
    by (pose proof (sin_cos_square phi); lra).
  apply sqrt_1.
Qed.

Lemma tilt_axis_azimuth (phi : R) :
  tilt_axis (cos phi, sin phi, 0.0) = (sin phi, - cos phi, 0).
Proof.
  unfold tilt_axis. cbv zeta. rewrite norm_cross_azimuth.
  destruct (Rlt_dec 1 1e-9) as [Hlt|_]; [lra|].
  rewrite cross_azimuth. unfold vdiv, vx, vy, vz; simpl.
  f_equal; [f_equal|]; lra.
Qed.

(** Rotating the azimuth direction by [tilt] about the tilt axis. *)
Lemma tilt_rotation (phi tilt : R) :
  matvec (upper3 (rotation_matrix tilt (sin phi, - cos phi, 0)))
         (cos phi, sin phi, 0.0)
    = (cos phi * cos tilt, sin phi * cos tilt, sin tilt).
Proof.
  pose proof (sin_cos_square phi) as Hphi.
  unfold rotation_matrix. cbv zeta.
  replace (sqrt (np_dot (sin phi, - cos phi, 0) (sin phi, - cos phi, 0))) with 1.
  2:{ unfold np_dot, vx, vy, vz; simpl.
      replace (sin phi * sin phi + - cos phi * - cos phi + 0 * 0) with 1 by lra.
      symmetry; apply sqrt_1. }
  unfold vdiv, matvec, np_dot, vx, vy, vz; simpl.
  set (s := sin phi) in *. set (c := cos phi) in *.
  set (st := sin tilt). set (ct := cos tilt).
  replace 0.0 with 0 by lra. rewrite !Rdiv_1_r.
  f_equal; [f_equal|]; try nra.
  transitivity (st * (s * s + c * c)); [ring | rewrite Hphi; ring].
Qed.

(** Tilting the azimuth direction by [tilt] lifts it out of the plane by
    exactly that angle, and the result has unit length. *)
Lemma direction_formula (phi tilt : R) :
  direction phi tilt = (cos phi * cos tilt, sin phi * cos tilt, sin tilt).
Proof.
  unfold direction. cbv zeta. rewrite tilt_axis_azimuth, tilt_rotation.
  pose proof (sin_cos_square phi) as Hphi.
  pose proof (sin_cos_square tilt) as Htilt.
  assert (Hn : norm (cos phi * cos tilt, sin phi * cos tilt, sin tilt) = 1).
  { unfold norm, vx, vy, vz; simpl.
    replace (cos phi * cos tilt * (cos phi * cos tilt) +
             sin phi * cos tilt * (sin phi * cos tilt) + sin tilt * sin tilt)
      with 1 by nra.
    apply sqrt_1. }
  rewrite Hn. unfold vdiv, vx, vy, vz; simpl. f_equal; [f_equal|]; lra.
Qed.

Lemma direction_unit (phi tilt : R) : norm (direction phi tilt) = 1.
Proof.
  rewrite direction_formula.
  pose proof (sin_cos_square phi) as Hphi.
  pose proof (sin_cos_square tilt) as Htilt.
  unfold norm, vx, vy, vz; simpl.
  replace (cos phi * cos tilt * (cos phi * cos tilt) +
           sin phi * cos tilt * (sin phi * cos tilt) + sin tilt * sin tilt)
    with 1 by nra.
  apply sqrt_1.
Qed.

(** ** The sampler *)

Lemma endpoints_inside_true (sheet_w sheet_d sheet_t half : R) (dvec c : vec3) :
  endpoints_inside sheet_w sheet_d sheet_t half dvec c = true <->
  in_box sheet_w sheet_d sheet_t (vsub c (vscale half dvec)) /\
  in_box sheet_w sheet_d sheet_t (vadd c (vscale half dvec)).
Proof.
  unfold endpoints_inside, in_box. cbv zeta.
  rewrite !andb_true_iff, !between_true.
  replace 0.0 with 0 by lra. tauto.
Qed.

Section SamplerProps.
Context {G : Type} `{Generator G}.

(** The two ways [sample_fiber] can return, read off the rejection loop. *)
Lemma sample_fiber_traced_cases (sheet_w sheet_d sheet_t : R) (g : G) :
  forall (L : R) (dvec : vec3) (g1 : G),
    draw_shape g = ((L, dvec), g1) ->
    match place_center 2000 sheet_w sheet_d sheet_t (0.5 * L) dvec g1 with
    | (Some c, g2) =>
        sample_fiber_traced sheet_w sheet_d sheet_t g
          = ((Accepted, (L, c, dvec)), g2)
    | (None, g2) =>
        sample_fiber_traced sheet_w sheet_d sheet_t g
          = ((Fallback, (L, (sheet_w / 2, sheet_d / 2, sheet_t / 2), dvec)), g2)
    end.
Proof.
  intros L dvec g1 Hshape. unfold sample_fiber_traced, bind. rewrite Hshape.
  destruct (place_center 2000 sheet_w sheet_d sheet_t (0.5 * L) dvec g1)
    as [[c|] g2]; reflexivity.
Qed.

Lemma sample_fiber_erase (sheet_w sheet_d sheet_t : R) (g : G) :
  sample_fiber sheet_w sheet_d sheet_t g
    = (snd (fst (sample_fiber_traced sheet_w sheet_d sheet_t g)),
       snd (sample_fiber_traced sheet_w sheet_d sheet_t g)).
Proof.
  unfold sample_fiber, sample_fiber_traced, bind, ret.
  destruct (draw_shape g) as [[L dvec] g1].
  destruct (place_center 2000 sheet_w sheet_d sheet_t (0.5 * L) dvec g1)
    as [[c|] g2]; reflexivity.
Qed.

(** A centre that leaves the loop passed the test. *)
Lemma place_center_Some (n : nat) (sheet_w sheet_d sheet_t half : R) (dvec : vec3) :
  forall (g g' : G) (c : vec3),
    place_center n sheet_w sheet_d sheet_t half dvec g = (Some c, g') ->
    endpoints_inside sheet_w sheet_d sheet_t half dvec c = true.
Proof.
  induction n as [|n IH]; intros g g' c Hpc; simpl in Hpc.
  - discriminate.
  - unfold bind in Hpc.
    destruct (uniform 0.0 sheet_w g) as [cx g1].
    destruct (uniform 0.0 sheet_d g1) as [cy g2].
    destruct (uniform 0.0 sheet_t g2) as [cz g3].
    destruct (endpoints_inside sheet_w sheet_d sheet_t half dvec (cx, cy, cz)) eqn:Hin.
    + unfold ret in Hpc. injection Hpc as <- _. exact Hin.
    + exact (IH g3 g' c Hpc).
Qed.

(** The loop runs out exactly when every candidate it draws fails the
    test. *)
Lemma place_center_None (n : nat) (sheet_w sheet_d sheet_t half : R) (dvec : vec3) :
  forall g : G,
    fst (place_center n sheet_w sheet_d sheet_t half dvec g) = None <->
    Forall (fun c => endpoints_inside sheet_w sheet_d sheet_t half dvec c = false)
           (fst (draw_candidates n sheet_w sheet_d sheet_t g)).
Proof.
  induction n as [|n IH]; intro g; simpl.
  - split; [constructor | reflexivity].
  - unfold bind.
    destruct (uniform 0.0 sheet_w g) as [cx g1].
    destruct (uniform 0.0 sheet_d g1) as [cy g2].
    destruct (uniform 0.0 sheet_t g2) as [cz g3].
    specialize (IH g3).
    destruct (draw_candidates n sheet_w sheet_d sheet_t g3) as [cs g4].
    destruct (endpoints_inside sheet_w sheet_d sheet_t half dvec (cx, cy, cz)) eqn:Hin;
      simpl in *.
    + split; [discriminate|]. intros Hall. apply Forall_inv in Hall. congruence.
    + rewrite IH. split; [now constructor | apply Forall_inv_tail].
Qed.

(** The length and the direction come from the first three draws only. *)
Lemma draw_shape_spec (g : G) :
  exists (phi tilt : R),
    fst (fst (draw_shape g)) = fst (uniform L_min L_max g) /\
    snd (fst (draw_shape g)) = direction phi tilt /\
    - deg2rad tilt_clip_deg <= tilt <= deg2rad tilt_clip_deg.
Proof.
  unfold draw_shape, bind, ret.
  destruct (uniform L_min L_max g) as [L g1].
  destruct (uniform 0.0 (2 * PI) g1) as [phi g2].
  destruct (normal 0.0 (deg2rad tilt_std_deg) g2) as [t g3].
  exists phi, (clip t (- deg2rad tilt_clip_deg) (deg2rad tilt_clip_deg)).
  repeat split; try reflexivity; apply clip_bounds;
    unfold deg2rad, tilt_clip_deg, tilt_std_deg; pose proof PI_RGT_0; lra.
Qed.

(** Whichever [return] fires, the result carries the length and the
    direction of [draw_shape]. *)
Lemma sample_fiber_shape (sheet_w sheet_d sheet_t : R) (g : G) :
  exists c : vec3,
    fst (sample_fiber sheet_w sheet_d sheet_t g)
      = (fst (fst (draw_shape g)), c, snd (fst (draw_shape g))).
Proof.
  rewrite sample_fiber_erase.
  destruct (draw_shape g) as [[L dvec] g1] eqn:Hshape.
  pose proof (sample_fiber_traced_cases sheet_w sheet_d sheet_t g L dvec g1 Hshape) as Hc.
  destruct (place_center 2000 sheet_w sheet_d sheet_t (0.5 * L) dvec g1)
    as [[c|] g2]; rewrite Hc; simpl; eauto.
Qed.

(** C1.  Whenever [sample_fiber] returns from the acceptance branch of the
    rejection loop, both endpoints [center - (length/2)*direction] and
    [center + (length/2)*direction] lie in the box
    [[0,sheet_w] x [0,sheet_d] x [0,sheet_t]], bounds included. *)
Theorem accepted_endpoints_in_box (sheet_w sheet_d sheet_t : R) (g g' : G)
  (L : R) (c dvec : vec3) :
  0 < sheet_w -> 0 < sheet_d -> 0 < sheet_t ->
  sample_fiber_traced sheet_w sheet_d sheet_t g = ((Accepted, (L, c, dvec)), g') ->
  sample_fiber sheet_w sheet_d sheet_t g = ((L, c, dvec), g') /\
  in_box sheet_w sheet_d sheet_t (vsub c (vscale (L / 2) dvec)) /\
  in_box sheet_w sheet_d sheet_t (vadd c (vscale (L / 2) dvec)).
Proof.
  intros _ _ _ Htr. split.
  { rewrite sample_fiber_erase, Htr. reflexivity. }
  destruct (draw_shape g) as [[L0 d0] g1] eqn:Hshape.
  pose proof (sample_fiber_traced_cases sheet_w sheet_d sheet_t g L0 d0 g1 Hshape) as Hc.
  destruct (place_center 2000 sheet_w sheet_d sheet_t (0.5 * L0) d0 g1)
    as [[c0|] g2] eqn:Hpc; rewrite Hc in Htr; [|discriminate].
  injection Htr as -> -> -> _.
  apply place_center_Some in Hpc. apply endpoints_inside_true in Hpc.
  replace (L / 2) with (0.5 * L) by lra. exact Hpc.
Qed.

(** C4.  On every return path the direction makes with the horizontal plane
    an angle [|arcsin(direction_z)|] of at most three times the tilt standard
    deviation, that is three degrees for the standard deviation of one
    degree the module sets. *)
Theorem tilt_within_three_sigma (sheet_w sheet_d sheet_t : R) (g : G) :
  Rabs (asin (vz (snd (fst (sample_fiber sheet_w sheet_d sheet_t g)))))
    <= 3 * deg2rad tilt_std_deg /\
  3 * deg2rad tilt_std_deg = deg2rad 3.
Proof.
  split; [|unfold deg2rad, tilt_std_deg; lra].
  destruct (sample_fiber_shape sheet_w sheet_d sheet_t g) as [c ->].
  destruct (draw_shape_spec g) as (phi & tilt & _ & -> & Htilt).
  rewrite direction_formula. unfold vz; simpl.
  unfold deg2rad, tilt_clip_deg, tilt_std_deg in *. pose proof PI_RGT_0.
  rewrite asin_sin by lra. apply Rabs_le. lra.
Qed.

(** C5.  When none of the 2000 candidate centres passes the test,
    [sample_fiber] returns from its last line: the length it drew first (the
    first uniform draw), the centroid of the box and the direction it had
    computed.  The model is a total function, so nothing is raised. *)
Theorem fallback_placement (sheet_w sheet_d sheet_t : R) (g g1 : G)
  (L : R) (dvec : vec3) :
  draw_shape g = ((L, dvec), g1) ->
  Forall (fun c => endpoints_inside sheet_w sheet_d sheet_t (0.5 * L) dvec c = false)
         (fst (draw_candidates 2000 sheet_w sheet_d sheet_t g1)) ->
  fst (sample_fiber_traced sheet_w sheet_d sheet_t g)
    = (Fallback, (L, (sheet_w / 2, sheet_d / 2, sheet_t / 2), dvec)) /\
  fst (sample_fiber sheet_w sheet_d sheet_t g)
    = (L, (sheet_w / 2, sheet_d / 2, sheet_t / 2), dvec) /\
  L = fst (uniform L_min L_max g).
Proof.
  intros Hshape Hnone. apply place_center_None in Hnone.
  pose proof (sample_fiber_traced_cases sheet_w sheet_d sheet_t g L dvec g1 Hshape) as Hc.
  destruct (place_center 2000 sheet_w sheet_d sheet_t (0.5 * L) dvec g1)
    as [[c|] g2]; [discriminate|].
  rewrite sample_fiber_erase, Hc. repeat split.
  destruct (draw_shape_spec g) as (_ & _ & HL & _).
  rewrite Hshape in HL. exact HL.
Qed.

(** C10.  For every azimuth [phi] the in-plane direction is a unit
    horizontal vector, its cross product with the vertical axis has norm
    one, and the test [axis_norm < 1e-9] fails: the axis used is always the
    normalised cross product. *)
Theorem degenerate_axis_unreachable (phi : R) :
  norm (cos phi, sin phi, 0.0) = 1 /\
  vz (cos phi, sin phi, 0.0) = 0 /\
  norm (np_cross (cos phi, sin phi, 0.0) (0.0, 0.0, 1.0)) = 1 /\
  ~ norm (np_cross (cos phi, sin phi, 0.0) (0.0, 0.0, 1.0)) < 1e-9 /\
  tilt_axis (cos phi, sin phi, 0.0)
    = vdiv (np_cross (cos phi, sin phi, 0.0) (0.0, 0.0, 1.0))
           (norm (np_cross (cos phi, sin phi, 0.0) (0.0, 0.0, 1.0))).
Proof.
  pose proof (sin_cos_square phi) as Hphi.
  repeat split.
  - unfold norm, vx, vy, vz; simpl.
    replace (cos phi * cos phi + sin phi * sin phi + 0.0 * 0.0) with 1 by lra.
    apply sqrt_1.
  - unfold vz; simpl. lra.
  - apply norm_cross_azimuth.
  - rewrite norm_cross_azimuth. lra.
  - unfold tilt_axis. cbv zeta. rewrite norm_cross_azimuth.
    destruct (Rlt_dec 1 1e-9) as [Hlt|_]; [lra | reflexivity].
Qed.

End SamplerProps.

Section SamplerRange.
Context {G : Type} `{GeneratorRange G}.

(** C8.  The length returned by [sample_fiber] is the first uniform draw,
    whatever the sheet bounds and whichever [return] fires, and it lies in
    the closed interval [[5, 15]]. *)
Theorem length_in_range (sheet_w sheet_d sheet_t : R) (g : G) :
  fst (fst (fst (sample_fiber sheet_w sheet_d sheet_t g)))
    = fst (uniform L_min L_max g) /\
  5 <= fst (fst (fst (sample_fiber sheet_w sheet_d sheet_t g))) <= 15.
Proof.
  destruct (sample_fiber_shape sheet_w sheet_d sheet_t g) as [c ->].
  destruct (draw_shape_spec g) as (_ & _ & -> & _). simpl.
  split; [reflexivity|].
  pose proof (uniform_range L_min L_max g) as Hr.
  unfold L_min, L_max in *. lra.
Qed.

End SamplerRange.

Lemma midpoint_range : @GeneratorRange unit midpoint.
Proof. intros low high g Hle. simpl. lra. Qed.

Lemma clip_inside (a lo hi : R) : lo <= a <= hi -> clip a lo hi = a.
Proof.
  intros Ha. unfold clip, Rmin, Rmax.
  destruct (Rle_dec a lo); destruct (Rle_dec hi _); lra.
Qed.

Lemma midpoint_shape : @draw_shape unit midpoint tt = ((10, (-1, 0, 0)), tt).
Proof.
  unfold draw_shape, bind, ret; simpl.
  rewrite clip_inside
    by (unfold deg2rad, tilt_clip_deg, tilt_std_deg; pose proof PI_RGT_0; lra).
  replace ((0.0 + 2 * PI) / 2) with PI by lra.
  replace 0.0 with 0 by lra.
  rewrite direction_formula, cos_PI, sin_PI, cos_0, sin_0.
  unfold L_min, L_max.
  replace ((5.0 + 15.0) / 2) with 10 by lra.
  replace (-1 * 1) with (-1) by lra. replace (0 * 1) with 0 by lra.
  reflexivity.
Qed.

Lemma midpoint_accepts (n : nat) (sheet_w sheet_d sheet_t half : R) (dvec : vec3) :
  endpoints_inside sheet_w sheet_d sheet_t half dvec
    ((0.0 + sheet_w) / 2, (0.0 + sheet_d) / 2, (0.0 + sheet_t) / 2) = true ->
  @place_center unit midpoint (S n) sheet_w sheet_d sheet_t half dvec tt
    = (Some ((0.0 + sheet_w) / 2, (0.0 + sheet_d) / 2, (0.0 + sheet_t) / 2), tt).
Proof.
  intros Hin. simpl. unfold bind; simpl. rewrite Hin. reflexivity.
Qed.

Lemma midpoint_rejects (n : nat) (sheet_w sheet_d sheet_t half : R) (dvec : vec3) :
  endpoints_inside sheet_w sheet_d sheet_t half dvec
    ((0.0 + sheet_w) / 2, (0.0 + sheet_d) / 2, (0.0 + sheet_t) / 2) = false ->
  @place_center unit midpoint n sheet_w sheet_d sheet_t half dvec tt = (None, tt).
Proof.
  intros Hout. induction n as [|n IH]; [reflexivity|].
  simpl. unfold bind; simpl. rewrite Hout. exact IH.
Qed.

(** On the default sheet the first candidate, the centre of the sheet, is
    accepted. *)
Lemma midpoint_default_sheet :
  @sample_fiber_traced unit midpoint 50.0 20.0 0.5 tt
    = ((Accepted, (10, (25, 10, 0.25), (-1, 0, 0))), tt).
Proof.
  pose proof (sample_fiber_traced_cases 50.0 20.0 0.5 tt _ _ _ midpoint_shape) as Hc.
  change 2000%nat with (S 1999) in Hc.
  rewrite midpoint_accepts in Hc.
  - rewrite Hc.
    replace ((0.0 + 50.0) / 2) with 25 by lra.
    replace ((0.0 + 20.0) / 2) with 10 by lra.
    replace ((0.0 + 0.5) / 2) with 0.25 by lra.
    reflexivity.
  - apply endpoints_inside_true.
    unfold in_box, vsub, vadd, vscale, vx, vy, vz; simpl. lra.
Qed.

Lemma accepted_endpoints_in_box_witness :
  in_box 50.0 20.0 0.5 (vsub (25, 10, 0.25) (vscale (10 / 2) (-1, 0, 0))) /\
  in_box 50.0 20.0 0.5 (vadd (25, 10, 0.25) (vscale (10 / 2) (-1, 0, 0))).
Proof.
  refine (proj2 (@accepted_endpoints_in_box unit midpoint 50.0 20.0 0.5 tt tt
                   10 (25, 10, 0.25) (-1, 0, 0) _ _ _ midpoint_default_sheet));
    lra.
Defined.

Lemma tenth_sheet_rejected :
  endpoints_inside 1.0 1.0 0.1 (0.5 * 10) (-1, 0, 0)
    ((0.0 + 1.0) / 2, (0.0 + 1.0) / 2, (0.0 + 0.1) / 2) = false.
Proof.
  destruct (endpoints_inside _ _ _ _ _ _) eqn:Hin; [|reflexivity].
  apply endpoints_inside_true in Hin. exfalso.
  unfold in_box, vsub, vadd, vscale, vx, vy, vz in Hin; simpl in Hin. lra.
Qed.

Lemma fallback_placement_witness :
  fst (@sample_fiber unit midpoint 1.0 1.0 0.1 tt)
    = (10, (1.0 / 2, 1.0 / 2, 0.1 / 2), (-1, 0, 0)).
Proof.
  refine (proj1 (proj2 (@fallback_placement unit midpoint 1.0 1.0 0.1 tt tt
                          10 (-1, 0, 0) midpoint_shape _))).
  apply place_center_None.
  rewrite midpoint_rejects; [reflexivity | exact tenth_sheet_rejected].
Defined.

Lemma length_in_range_witness :
  5 <= fst (fst (fst (@sample_fiber unit midpoint 50.0 20.0 0.5 tt))) <= 15.
Proof.
  exact (proj2 (@length_in_range unit midpoint midpoint_range 50.0 20.0 0.5 tt)).
Defined.

(** ** Mesh assembly *)

Lemma concatenate_from (meshes : list Trimesh) :
  forall acc : Trimesh,
    vertices (fold_left append_mesh meshes acc)
      = vertices acc ++ List.concat (map vertices meshes) /\
    List.length (faces (fold_left append_mesh meshes acc))
      = (List.length (faces acc)
         + list_sum (map (fun m => List.length (faces m)) meshes))%nat.
Proof.
  induction meshes as [|m meshes IH]; intro acc; simpl.
  - rewrite app_nil_r, Nat.add_0_r. split; reflexivity.
  - destruct (IH (append_mesh acc m)) as [IHv IHf]. rewrite IHv, IHf. simpl.
    rewrite length_app, length_map, <- app_assoc. split; [reflexivity | lia].
Qed.

Lemma length_concat_sum {A : Type} (ls : list (list A)) :
  List.length (List.concat ls) = list_sum (map (@List.length A) ls).
Proof.
  induction ls as [|l ls IH]; simpl; [reflexivity|].
  now rewrite length_app, IH.
Qed.

(** Appending a well-formed solid to a well-formed mesh keeps every face
    inside the vertex array: the offset moves the new faces past the
    vertices already there. *)
Lemma append_mesh_well_formed (acc m : Trimesh) :
  well_formed acc -> well_formed m -> well_formed (append_mesh acc m).
Proof.
  unfold well_formed, append_mesh; simpl. intros Ha Hm.
  rewrite length_app. apply Forall_app. split.
  - eapply Forall_impl; [|exact Ha]. intros [[a b] c]; simpl. lia.
  - apply Forall_map. eapply Forall_impl; [|exact Hm].
    intros [[a b] c]; simpl. lia.
Qed.

Lemma concatenate_well_formed (meshes : list Trimesh) :
  Forall well_formed meshes -> well_formed (concatenate meshes).
Proof.
  unfold concatenate.
  assert (Hgen : forall acc, well_formed acc -> Forall well_formed meshes ->
                             well_formed (fold_left append_mesh meshes acc)).
  { induction meshes as [|m meshes IH]; intros acc Hacc Hms; simpl; [exact Hacc|].
    apply Forall_cons_iff in Hms as [Hm Hms].
    apply IH; [now apply append_mesh_well_formed | exact Hms]. }
  apply Hgen. constructor.
Qed.

Lemma concatenate_vertices (meshes : list Trimesh) :
  vertices (concatenate meshes) = List.concat (map vertices meshes).
Proof. apply (concatenate_from meshes empty_mesh). Qed.

Lemma concatenate_vertex_count (meshes : list Trimesh) :
  List.length (vertices (concatenate meshes))
    = list_sum (map (fun m => List.length (vertices m)) meshes).
Proof. now rewrite concatenate_vertices, length_concat_sum, map_map. Qed.

Lemma concatenate_face_count (meshes : list Trimesh) :
  List.length (faces (concatenate meshes))
    = list_sum (map (fun m => List.length (faces m)) meshes).
Proof.
  unfold concatenate. now rewrite (proj2 (concatenate_from meshes empty_mesh)).
Qed.

(** Two triangles: the second one's face is moved past the three vertices
    of the first. *)
Example concatenate_two_triangles :
  let t1 := {| vertices := [(0, 0, 0); (1, 0, 0); (0, 1, 0)];
               faces := [(0, 1, 2)%nat] |} in
  let t2 := {| vertices := [(0, 0, 1); (1, 0, 1); (0, 1, 1)];
               faces := [(0, 1, 2)%nat] |} in
  concatenate [t1; t2]
    = {| vertices := [(0, 0, 0); (1, 0, 0); (0, 1, 0);
                      (0, 0, 1); (1, 0, 1); (0, 1, 1)];
         faces := [(0, 1, 2)%nat; (3, 4, 5)%nat] |}.
Proof. reflexivity. Qed.

(** C2.  Assembling no solids gives the empty mesh, with no vertex and no
    face; assembling any sequence of solids gives a mesh whose vertex array
    is the solids' vertex arrays one after the other, nothing merged, so its
    vertex count is the sum of theirs, and whose face count is the sum of
    their face counts. *)
Theorem concatenate_counts :
  concatenate [] = empty_mesh /\
  List.length (vertices (concatenate [])) = 0%nat /\
  List.length (faces (concatenate [])) = 0%nat /\
  forall meshes : list Trimesh,
    vertices (concatenate meshes) = List.concat (map vertices meshes) /\
    List.length (vertices (concatenate meshes))
      = list_sum (map (fun m => List.length (vertices m)) meshes) /\
    List.length (faces (concatenate meshes))
      = list_sum (map (fun m => List.length (faces m)) meshes).
Proof.
  split; [reflexivity|]. split; [reflexivity|]. split; [reflexivity|].
  intros meshes. split; [apply concatenate_vertices|].
  split; [apply concatenate_vertex_count | apply concatenate_face_count].
Qed.

(** ** Generation runs *)

Section GenerationProps.
Context {G : Type} `{Generator G} `{MeshLib}.

(** The loop's meshes are the solids of the fibers it samples, in order. *)
Lemma fiber_loop_population (n : nat) (sheet_w sheet_d sheet_t fiber_r : R) :
  forall (meshes : list Trimesh) (g : G),
    fiber_loop n sheet_w sheet_d sheet_t fiber_r meshes g
      = (meshes ++ map (fiber_solid fiber_r)
                       (fst (population n sheet_w sheet_d sheet_t g)),
         snd (population n sheet_w sheet_d sheet_t g)).
Proof.
  induction n as [|n IH]; intros meshes g; simpl.
  - unfold ret. simpl. now rewrite app_nil_r.
  - unfold bind.
    destruct (sample_fiber sheet_w sheet_d sheet_t g) as [f g1].
    rewrite IH.
    destruct (population n sheet_w sheet_d sheet_t g1) as [fs g2]. simpl.
    now rewrite <- app_assoc.
Qed.

Lemma generate_from_population (sheet_w sheet_d sheet_t fiber_diam : R)
  (fiber_r : option R) (n_fibers : Z) (g : G) :
  fst (generate_nanomesh_stl sheet_w sheet_d sheet_t fiber_diam fiber_r n_fibers g)
    = concatenate
        (map (fiber_solid (radius_used fiber_diam fiber_r))
             (fst (population (Z.to_nat n_fibers) sheet_w sheet_d sheet_t g))).
Proof.
  unfold generate_nanomesh_stl, bind, ret, radius_used.
  rewrite fiber_loop_population. reflexivity.
Qed.


End GenerationProps.

(** ** Two runs, each with its own generator *)

Section TwoRuns.
Context {G1 G2 : Type} {gen1 : Generator G1} {gen2 : Generator G2} {lib : MeshLib}.

(** The states of the two generators correspond: from corresponding states
    the same request draws the same value and leaves corresponding states.
    Two generators created from one seed are in this relation whatever the
    representation of their states. *)
Variable alike : G1 -> G2 -> Prop.
Hypothesis uniform_alike : forall (low high : R) (g1 : G1) (g2 : G2),
  alike g1 g2 -> same_outcome alike (uniform low high g1) (uniform low high g2).
Hypothesis normal_alike : forall (loc scale : R) (g1 : G1) (g2 : G2),
  alike g1 g2 -> same_outcome alike (normal loc scale g1) (normal loc scale g2).

Lemma bind_alike {A B : Type} (m1 : Rand G1 A) (m2 : Rand G2 A)
  (k1 : A -> Rand G1 B) (k2 : A -> Rand G2 B) (g1 : G1) (g2 : G2) :
  same_outcome alike (m1 g1) (m2 g2) ->
  (forall (a : A) (g1' : G1) (g2' : G2),
     alike g1' g2' -> same_outcome alike (k1 a g1') (k2 a g2')) ->
  same_outcome alike (bind m1 k1 g1) (bind m2 k2 g2).
Proof.
  unfold bind. intros [Hv Hs] Hk.
  destruct (m1 g1) as [a1 g1'], (m2 g2) as [a2 g2']. simpl in Hv, Hs. subst a2.
  now apply Hk.
Qed.

Lemma ret_alike {A : Type} (a : A) (g1 : G1) (g2 : G2) :
  alike g1 g2 -> same_outcome alike (ret a g1) (ret a g2).
Proof. intros Hg. split; [reflexivity | exact Hg]. Qed.

Lemma draw_shape_alike (g1 : G1) (g2 : G2) :
  alike g1 g2 -> same_outcome alike (draw_shape g1) (draw_shape g2).
Proof.
  intros Hg. unfold draw_shape.
  apply bind_alike; [now apply uniform_alike|]. intros L g1a g2a Ha.
  apply bind_alike; [now apply uniform_alike|]. intros phi g1b g2b Hb.
  apply bind_alike; [now apply normal_alike|]. intros t g1c g2c Hc.
  now apply ret_alike.
Qed.

(** The rejection loops of the two runs make the same attempts: they test
    the same candidates, so they stop at the same one or both run out. *)
Lemma place_center_alike (n : nat) (sheet_w sheet_d sheet_t half : R) (dvec : vec3) :
  forall (g1 : G1) (g2 : G2),
    alike g1 g2 ->
    same_outcome alike (place_center n sheet_w sheet_d sheet_t half dvec g1)
                       (place_center n sheet_w sheet_d sheet_t half dvec g2).
Proof.
  induction n as [|n IH]; intros g1 g2 Hg; simpl.
  - now apply ret_alike.
  - apply bind_alike; [now apply uniform_alike|]. intros cx g1a g2a Ha.
    apply bind_alike; [now apply uniform_alike|]. intros cy g1b g2b Hb.
    apply bind_alike; [now apply uniform_alike|]. intros cz g1c g2c Hc.
    destruct (endpoints_inside sheet_w sheet_d sheet_t half dvec (cx, cy, cz)).
    + now apply ret_alike.
    + now apply IH.
Qed.

Lemma sample_fiber_alike (sheet_w sheet_d sheet_t : R) (g1 : G1) (g2 : G2) :
  alike g1 g2 ->
  same_outcome alike (sample_fiber sheet_w sheet_d sheet_t g1)
                     (sample_fiber sheet_w sheet_d sheet_t g2).
Proof.
  intros Hg. unfold sample_fiber.
  apply bind_alike; [now apply draw_shape_alike|]. intros [L dvec] g1a g2a Ha.
  apply bind_alike; [now apply place_center_alike|]. intros [c|] g1b g2b Hb;
    now apply ret_alike.
Qed.

Lemma population_alike (n : nat) (sheet_w sheet_d sheet_t : R) :
  forall (g1 : G1) (g2 : G2),
    alike g1 g2 ->
    same_outcome alike (population n sheet_w sheet_d sheet_t g1)
                       (population n sheet_w sheet_d sheet_t g2).
Proof.
  induction n as [|n IH]; intros g1 g2 Hg; simpl.
  - now apply ret_alike.
  - apply bind_alike; [now apply sample_fiber_alike|]. intros f g1a g2a Ha.
    apply bind_alike; [now apply IH|]. intros fs g1b g2b Hb.
    now apply ret_alike.
Qed.


End TwoRuns.

(** The two congruential generators draw alike from corresponding states,
    and creating them from one seed puts them in corresponding states. *)
Lemma lcg_uniform_alike (low high : R) (g1 : Z) (g2 : Z * nat) :
  lcg_alike g1 g2 ->
  same_outcome lcg_alike (@uniform Z lcg low high g1)
                         (@uniform (Z * nat) lcg_counting low high g2).
Proof. destruct g2 as [s n]. unfold lcg_alike. simpl. intros ->. split; reflexivity. Qed.

Lemma lcg_normal_alike (loc scale : R) (g1 : Z) (g2 : Z * nat) :
  lcg_alike g1 g2 ->
  same_outcome lcg_alike (@normal Z lcg loc scale g1)
                         (@normal (Z * nat) lcg_counting loc scale g2).
Proof. destruct g2 as [s n]. unfold lcg_alike. simpl. intros ->. split; reflexivity. Qed.

Lemma lcg_seeded_alike (seed : Z) :
  lcg_alike (@default_rng Z lcg seed) (@default_rng (Z * nat) lcg_counting seed).
Proof. reflexivity. Qed.

(** Both generators created from seed 42 start at 42 and move to the same
    next state with the first draw; the second also counts the draw. *)
Example lcg_first_states :
  @rng Z lcg = 42%Z /\
  snd (@uniform Z lcg 5.0 15.0 42%Z) = 1250496027%Z /\
  snd (@uniform (Z * nat) lcg_counting 5.0 15.0 (42%Z, O)) = (1250496027%Z, 1%nat).
Proof. repeat split; reflexivity. Qed.


End NanomeshProps.

(* ================================================================== *)
(** * Part IV.  Further properties of the fiber sampler                *)
(* ================================================================== *)

Module SamplerMore.
Import Nanomesh NanomeshProps.

Section WithGenerator.
Context {G : Type} `{Generator G}.

(** The direction of a sampled fiber is one of the directions
    [direction phi tilt] with the tilt inside the clipping interval. *)
Lemma sample_fiber_direction (sheet_w sheet_d sheet_t : R) (g : G) :
  exists phi tilt : R,
    snd (fst (sample_fiber sheet_w sheet_d sheet_t g)) = direction phi tilt /\
    - deg2rad tilt_clip_deg <= tilt <= deg2rad tilt_clip_deg.
Proof.
  destruct (sample_fiber_shape sheet_w sheet_d sheet_t g) as [c ->].
  destruct (draw_shape_spec g) as (phi & tilt & _ & Hd & Htilt).
  exists phi, tilt. simpl. auto.
Qed.

(** X1.  On every return path the direction returned by [sample_fiber] has
    Euclidean norm one. *)
Theorem direction_has_unit_norm (sheet_w sheet_d sheet_t : R) (g : G) :
  norm (snd (fst (sample_fiber sheet_w sheet_d sheet_t g))) = 1.
Proof.
  destruct (sample_fiber_direction sheet_w sheet_d sheet_t g) as (phi & tilt & -> & _).
  apply direction_unit.
Qed.

(** What acceptance gives: the test passed on the returned centre. *)
Lemma accepted_passed_test (sheet_w sheet_d sheet_t : R) (g g' : G)
  (L : R) (c dvec : vec3) :
  sample_fiber_traced sheet_w sheet_d sheet_t g = ((Accepted, (L, c, dvec)), g') ->
  in_box sheet_w sheet_d sheet_t (vsub c (vscale (0.5 * L) dvec)) /\
  in_box sheet_w sheet_d sheet_t (vadd c (vscale (0.5 * L) dvec)).
Proof.
  intros Htr.
  destruct (draw_shape g) as [[L0 d0] g1] eqn:Hshape.
  pose proof (sample_fiber_traced_cases sheet_w sheet_d sheet_t g L0 d0 g1 Hshape) as Hc.
  destruct (place_center 2000 sheet_w sheet_d sheet_t (0.5 * L0) d0 g1)
    as [[c0|] g2] eqn:Hpc; rewrite Hc in Htr; [|discriminate].
  injection Htr as -> -> -> _.
  apply place_center_Some in Hpc. now apply endpoints_inside_true in Hpc.
Qed.

(** Between two values of an interval, every weighted mean stays in it. *)
Lemma between_endpoints (lo hi m u t : R) :
  lo <= m - u <= hi -> lo <= m + u <= hi -> -1 <= t <= 1 ->
  lo <= m + t * u <= hi.
Proof. intros H0 H1 Ht. nra. Qed.

(** X2.  When [sample_fiber] returns from the acceptance branch, the whole
    centerline, every point [center + t * (length/2) * direction] with
    [-1 <= t <= 1], lies in the sheet's box. *)
Theorem accepted_centerline_in_box (sheet_w sheet_d sheet_t : R) (g g' : G)
  (L : R) (c dvec : vec3) (t : R) :
  sample_fiber_traced sheet_w sheet_d sheet_t g = ((Accepted, (L, c, dvec)), g') ->
  -1 <= t <= 1 ->
  in_box sheet_w sheet_d sheet_t (vadd c (vscale (t * (L / 2)) dvec)).
Proof.
  intros Htr Ht.
  destruct (accepted_passed_test _ _ _ _ _ _ _ _ Htr) as [H0 H1].
  destruct c as [[cx cy] cz]. destruct dvec as [[dx dy] dz].
  unfold in_box, vadd, vsub, vscale, vx, vy, vz in *; simpl in *.
  destruct H0 as (H0x & H0y & H0z). destruct H1 as (H1x & H1y & H1z).
  replace (t * (L / 2) * dx) with (t * (0.5 * L * dx)) by lra.
  replace (t * (L / 2) * dy) with (t * (0.5 * L * dy)) by lra.
  replace (t * (L / 2) * dz) with (t * (0.5 * L * dz)) by lra.
  split; [|split]; apply between_endpoints; assumption.
Qed.

(** X3.  For non-negative sheet bounds the centre returned by
    [sample_fiber] lies in the sheet's box on both return paths: an accepted
    centre is the midpoint of two points of the box, the fallback centre is
    the centroid. *)
Theorem center_in_box (sheet_w sheet_d sheet_t : R) (g : G) :
  0 <= sheet_w -> 0 <= sheet_d -> 0 <= sheet_t ->
  in_box sheet_w sheet_d sheet_t
    (snd (fst (fst (sample_fiber sheet_w sheet_d sheet_t g)))).
Proof.
  intros Hw Hd Ht. rewrite sample_fiber_erase. cbn [fst].
  destruct (sample_fiber_traced sheet_w sheet_d sheet_t g) as [[b [[L c] dvec]] g'] eqn:Htr.
  cbn [fst snd]. destruct b.
  - destruct (accepted_passed_test _ _ _ _ _ _ _ _ Htr) as [H0 H1].
    destruct c as [[cx cy] cz]. destruct dvec as [[dx dy] dz].
    unfold in_box, vadd, vsub, vscale, vx, vy, vz in *; simpl in *. lra.
  - destruct (draw_shape g) as [[L0 d0] g1] eqn:Hshape.
    pose proof (sample_fiber_traced_cases sheet_w sheet_d sheet_t g L0 d0 g1 Hshape) as Hc.
    destruct (place_center 2000 sheet_w sheet_d sheet_t (0.5 * L0) d0 g1)
      as [[c0|] g2]; rewrite Hc in Htr; [discriminate|].
    injection Htr as _ <- _ _.
    unfold in_box, vx, vy, vz; simpl. lra.
Qed.

(** X4.  The rejection loop returns the first candidate, in the order drawn,
    that passes the test, and nothing when no candidate passes. *)
Theorem place_center_first_passing (n : nat) (sheet_w sheet_d sheet_t half : R)
  (dvec : vec3) (g : G) :
  fst (place_center n sheet_w sheet_d sheet_t half dvec g)
    = find (endpoints_inside sheet_w sheet_d sheet_t half dvec)
           (fst (draw_candidates n sheet_w sheet_d sheet_t g)).
Proof.
  revert g. induction n as [|n IH]; intro g; simpl; [reflexivity|].
  unfold bind.
  destruct (uniform 0.0 sheet_w g) as [cx g1].
  destruct (uniform 0.0 sheet_d g1) as [cy g2].
  destruct (uniform 0.0 sheet_t g2) as [cz g3].
  specialize (IH g3).
  destruct (draw_candidates n sheet_w sheet_d sheet_t g3) as [cs g4].
  simpl in *.
  destruct (endpoints_inside sheet_w sheet_d sheet_t half dvec (cx, cy, cz));
    [reflexivity | exact IH].
Qed.

End WithGenerator.

Lemma accepted_centerline_in_box_witness :
  in_box 50.0 20.0 0.5 (vadd (25, 10, 0.25) (vscale (0.5 * (10 / 2)) (-1, 0, 0))).
Proof.
  refine (@accepted_centerline_in_box unit midpoint 50.0 20.0 0.5 tt tt
            10 (25, 10, 0.25) (-1, 0, 0) 0.5 midpoint_default_sheet _).
  lra.
Defined.

Lemma center_in_box_witness :
  in_box 50.0 20.0 0.5
    (snd (fst (fst (@sample_fiber unit midpoint 50.0 20.0 0.5 tt)))).
Proof.
  apply (@center_in_box unit midpoint 50.0 20.0 0.5 tt); lra.
Defined.

(** A unit vector has squared length one. *)
Lemma unit_squares (v : vec3) :
  norm v = 1 -> vx v * vx v + vy v * vy v + vz v * vz v = 1.
Proof.
  unfold norm. intros Hn.
  assert (Hpos : 0 <= vx v * vx v + vy v * vy v + vz v * vz v) by nra.
  rewrite <- (sqrt_sqrt _ Hpos), Hn. lra.
Qed.

Section WithRange.
Context {G : Type} {gen : Generator G} {gen_range : GeneratorRange G}.

(** X5.  A sheet whose diagonal is shorter than the shortest fiber accepts
    no candidate: every call returns from the fallback, with the centre at
    the centroid, so all fibers of such a sheet share one centre. *)
Theorem short_diagonal_falls_back (sheet_w sheet_d sheet_t : R) (g : G) :
  sheet_w * sheet_w + sheet_d * sheet_d + sheet_t * sheet_t < 25 ->
  fst (fst (sample_fiber_traced sheet_w sheet_d sheet_t g)) = Fallback /\
  snd (fst (fst (sample_fiber sheet_w sheet_d sheet_t g)))
    = (sheet_w / 2, sheet_d / 2, sheet_t / 2).
Proof.
  intros Hdiag.
  pose proof (sample_fiber_erase sheet_w sheet_d sheet_t g) as Herase.
  destruct (sample_fiber_shape sheet_w sheet_d sheet_t g) as [c' Hshape].
  destruct (draw_shape_spec g) as (phi & tilt & HL & Hd & _).
  pose proof (uniform_range L_min L_max g) as Hrange.
  unfold L_min, L_max in Hrange.
  destruct (sample_fiber_traced sheet_w sheet_d sheet_t g)
    as [[b [[L c] dvec]] g'] eqn:Htr.
  rewrite Herase in Hshape |- *. cbn [fst snd] in *.
  injection Hshape as HLeq Hceq Hdeq.
  destruct b.
  - exfalso.
    destruct (accepted_passed_test _ _ _ _ _ _ _ _ Htr) as [Hlo Hhi].
    assert (Hunit : vx dvec * vx dvec + vy dvec * vy dvec + vz dvec * vz dvec = 1).
    { apply unit_squares. rewrite Hdeq, Hd. apply direction_unit. }
    assert (HL5 : 5 <= L).
    { rewrite HLeq, HL. unfold L_min, L_max. lra. }
    destruct c as [[cx cy] cz]. destruct dvec as [[dx dy] dz].
    unfold in_box, vadd, vsub, vscale, vx, vy, vz in *; simpl in *.
    assert (Hx : (L * dx) * (L * dx) <= sheet_w * sheet_w) by nra.
    assert (Hy : (L * dy) * (L * dy) <= sheet_d * sheet_d) by nra.
    assert (Hz : (L * dz) * (L * dz) <= sheet_t * sheet_t) by nra.
    assert (HLL : 25 <= L * L) by nra.
    assert (Hsum : L * L * (dx * dx + dy * dy + dz * dz)
                   <= sheet_w * sheet_w + sheet_d * sheet_d + sheet_t * sheet_t)
      by lra.
    rewrite Hunit in Hsum. lra.
  - split; [reflexivity|].
    destruct (draw_shape g) as [[L0 d0] g1] eqn:Hs.
    pose proof (sample_fiber_traced_cases sheet_w sheet_d sheet_t g L0 d0 g1 Hs) as Hc.
    destruct (place_center 2000 sheet_w sheet_d sheet_t (0.5 * L0) d0 g1)
      as [[c0|] g2]; rewrite Hc in Htr; [discriminate|].
    now injection Htr as _ <- _ _.
Qed.

End WithRange.

Lemma short_diagonal_falls_back_witness :
  fst (fst (@sample_fiber_traced unit midpoint 1.0 1.0 0.1 tt)) = Fallback /\
  snd (fst (fst (@sample_fiber unit midpoint 1.0 1.0 0.1 tt)))
    = (1.0 / 2, 1.0 / 2, 0.1 / 2).
Proof.
  apply (@short_diagonal_falls_back unit midpoint midpoint_range 1.0 1.0 0.1 tt).
  lra.
Defined.

End SamplerMore.

(* ================================================================== *)
(** * Part V.  The rigid transform applied to each cylinder            *)
(* ================================================================== *)

Module OrientationProps.
Import Nanomesh NanomeshProps SamplerMore.

(** The solid of a fiber is the subdivided cylinder moved by
    [fiber_rotation] and then by [fiber_translation]. *)
Lemma fiber_solid_transforms `{MeshLib} (fiber_r L : R) (c dvec : vec3) :
  fiber_solid fiber_r (L, c, dvec)
    = apply_transform (fiber_translation c)
        (apply_transform (fiber_rotation dvec)
           (Nat.iter (Z.to_nat subdivide_iter) subdivide
              (cylinder fiber_r L sections))).
Proof. reflexivity. Qed.

(** Rotating a point of the vertical axis about a horizontal unit axis. *)
Lemma rotation_about_horizontal (a k0 k1 k2 h : R) :
  k0 * k0 + k1 * k1 = 1 -> k2 = 0 ->
  matvec (upper3 (rotation_matrix a (k0, k1, k2))) (0, 0, h)
    = (h * k1 * sin a, - h * k0 * sin a, h * cos a).
Proof.
  intros Hk ->. unfold rotation_matrix. cbv zeta.
  replace (sqrt (np_dot (k0, k1, 0) (k0, k1, 0))) with 1.
  2:{ unfold np_dot, vx, vy, vz; simpl.
      replace (k0 * k0 + k1 * k1 + 0 * 0) with 1 by lra.
      symmetry; apply sqrt_1. }
  unfold vdiv, matvec, np_dot, vx, vy, vz; simpl.
  rewrite !Rdiv_1_r. f_equal; [f_equal|]; ring.
Qed.

(** The cross product of the vertical axis with a vector. *)
Lemma cross_vertical (x y z : R) :
  np_cross (0.0, 0.0, 1.0) (x, y, z) = (- y, x, 0).
Proof.
  unfold np_cross, vx, vy, vz; simpl. f_equal; [f_equal|]; lra.
Qed.

Lemma norm_horizontal (x y : R) :
  norm (- y, x, 0) * norm (- y, x, 0) = x * x + y * y /\ 0 <= norm (- y, x, 0).
Proof.
  unfold norm, vx, vy, vz; simpl. split; [|apply sqrt_pos].
  rewrite sqrt_sqrt by nra. ring.
Qed.

(** Away from the vertical the rotated axis is the direction itself. *)
Lemma rotation_axis_image (dvec : vec3) (h : R) :
  norm dvec = 1 ->
  ~ norm (np_cross (0.0, 0.0, 1.0) dvec) < 1e-9 ->
  transform_point (fiber_rotation dvec) (0, 0, h) = vscale h dvec.
Proof.
  intros Hunit Hfar. apply unit_squares in Hunit.
  destruct dvec as [[x y] z]. unfold vx, vy, vz in Hunit; simpl in Hunit.
  unfold fiber_rotation. cbv zeta.
  destruct (Rlt_dec (norm (np_cross (0.0, 0.0, 1.0) (x, y, z))) 1e-9) as [Hnear|_];
    [contradiction|].
  rewrite cross_vertical in *.
  destruct (norm_horizontal x y) as [Hsq Hpos].
  set (len := norm (- y, x, 0)) in *.
  assert (Hlen : 0 < len) by lra.
  assert (Hz : -1 <= z <= 1) by nra.
  replace (np_dot (0.0, 0.0, 1.0) (x, y, z)) with z
    by (unfold np_dot, vx, vy, vz; simpl; lra).
  rewrite clip_inside by lra.
  unfold transform_point.
  unfold vdiv at 1. unfold vx, vy, vz; simpl fst; simpl snd.
  rewrite rotation_about_horizontal.
  2:{ transitivity ((x * x + y * y) / (len * len)); [field; lra|].
      rewrite <- Hsq. field. lra. }
  2:{ field. lra. }
  rewrite cos_acos by lra. rewrite sin_acos by lra.
  replace (sqrt (1 - z²)) with len.
  2:{ unfold Rsqr. replace (1 - z * z) with (len * len) by lra.
      symmetry; apply sqrt_square; lra. }
  unfold vadd, vscale, vx, vy, vz; simpl.
  f_equal; [f_equal|]; field; lra.
Qed.

(** X6.  For a unit direction that is not within [1e-9] of the vertical,
    [fiber_rotation] carries every point [(0, 0, h)] of the cylinder axis to
    [h * dvec]: the rotated axis points exactly along the direction. *)
Theorem fiber_rotation_aligns_axis (dvec : vec3) (h : R) :
  norm dvec = 1 ->
  ~ norm (np_cross (0.0, 0.0, 1.0) dvec) < 1e-9 ->
  transform_point (fiber_rotation dvec) (0, 0, h) = vscale h dvec.
Proof. exact (rotation_axis_image dvec h). Qed.

Lemma norm_x_axis : norm (1, 0, 0) = 1.
Proof.
  unfold norm, vx, vy, vz; simpl.
  replace (1 * 1 + 0 * 0 + 0 * 0) with 1 by lra. apply sqrt_1.
Qed.

Lemma fiber_rotation_aligns_axis_witness :
  transform_point (fiber_rotation (1, 0, 0)) (0, 0, 5) = vscale 5 (1, 0, 0).
Proof.
  apply fiber_rotation_aligns_axis; [exact norm_x_axis|].
  rewrite cross_vertical.
  unfold norm, vx, vy, vz; simpl.
  replace (- 0 * - 0 + 1 * 1 + 0 * 0) with 1 by lra. rewrite sqrt_1. lra.
Defined.

(** ** Fibers that come from the sampler *)

Lemma sin_square_le (x : R) : -1 <= x <= 1 -> sin x * sin x <= x * x.
Proof.
  intros Hx. pose proof PI_RGT_0 as Hpi. pose proof PI2_1 as Hpi2.
  destruct (Rtotal_order x 0) as [Hneg|[->|Hpos]].
  - assert (H1 : sin (- x) < - x) by (apply sin_lt_x; lra).
    assert (H2 : 0 <= sin (- x)) by (apply sin_ge_0; lra).
    rewrite sin_neg in H1, H2. nra.
  - rewrite sin_0. lra.
  - assert (H1 : sin x < x) by (apply sin_lt_x; lra).
    assert (H2 : 0 <= sin x) by (apply sin_ge_0; lra).
    nra.
Qed.

(** A direction tilted by at most three degrees is far from vertical. *)
Lemma tilted_direction_far_from_vertical (phi tilt : R) :
  - deg2rad tilt_clip_deg <= tilt <= deg2rad tilt_clip_deg ->
  ~ norm (np_cross (0.0, 0.0, 1.0) (direction phi tilt)) < 1e-9.
Proof.
  intros Htilt. rewrite direction_formula, cross_vertical.
  destruct (norm_horizontal (cos phi * cos tilt) (sin phi * cos tilt)) as [Hsq Hpos].
  set (len := norm _) in *.
  pose proof (sin_cos_square phi) as Hphi.
  pose proof (sin_cos_square tilt) as Hc.
  unfold deg2rad, tilt_clip_deg, tilt_std_deg in Htilt.
  pose proof PI_RGT_0 as Hpi. pose proof PI_4 as Hpi4.
  assert (Hs : sin tilt * sin tilt <= tilt * tilt) by (apply sin_square_le; lra).
  assert (Ht2 : tilt * tilt <= 0.01) by nra.
  assert (Hlen2 : len * len = cos tilt * cos tilt).
  { rewrite Hsq.
    transitivity (cos tilt * cos tilt * (sin phi * sin phi + cos phi * cos phi));
      [ring | rewrite Hphi; ring]. }
  intros Hnear. nra.
Qed.

Section SampledFibers.
Context {G : Type} {gen : Generator G}.

(** X7.  For every fiber the sampler returns, the near-vertical branch of
    the orientation is not taken, and the two matrices together carry each
    point [(0, 0, h)] of the cylinder axis to [center + h * direction]; with
    [h = -L/2] and [h = L/2] these are the fiber's endpoints. *)
Theorem sampled_fiber_axis_placed (sheet_w sheet_d sheet_t : R) (g : G) (h : R) :
  let f := fst (sample_fiber sheet_w sheet_d sheet_t g) in
  let c := snd (fst f) in
  let dvec := snd f in
  ~ norm (np_cross (0.0, 0.0, 1.0) dvec) < 1e-9 /\
  transform_point (fiber_translation c)
    (transform_point (fiber_rotation dvec) (0, 0, h))
    = vadd c (vscale h dvec).
Proof.
  intros f c dvec.
  destruct (sample_fiber_direction sheet_w sheet_d sheet_t g)
    as (phi & tilt & Hd & Htilt).
  fold f in Hd. fold dvec in Hd.
  assert (Hfar : ~ norm (np_cross (0.0, 0.0, 1.0) dvec) < 1e-9)
    by (rewrite Hd; now apply tilted_direction_far_from_vertical).
  split; [exact Hfar|].
  rewrite rotation_axis_image;
    [| rewrite Hd; apply direction_unit | exact Hfar].
  destruct c as [[cx cy] cz]. destruct dvec as [[dx dy] dz].
  unfold transform_point, fiber_translation, set_column3, eye4, eye3, matvec,
    np_dot, vadd, vscale, vx, vy, vz; simpl.
  f_equal; [f_equal|]; ring.
Qed.

End SampledFibers.


(** ** Directions within [1e-9] of the vertical *)

(** The half turn about the x axis reverses the vertical axis. *)
Lemma half_turn_reverses (h : R) :
  matvec (upper3 (rotation_matrix PI (1, 0, 0))) (0, 0, h) = (0, 0, - h).
Proof.
  unfold rotation_matrix. cbv zeta.
  replace (sqrt (np_dot (1, 0, 0) (1, 0, 0))) with 1.
  2:{ unfold np_dot, vx, vy, vz; simpl.
      replace (1 * 1 + 0 * 0 + 0 * 0) with 1 by lra. symmetry; apply sqrt_1. }
  unfold vdiv, matvec, np_dot, vx, vy, vz; simpl.
  rewrite sin_PI, cos_PI, !Rdiv_1_r. f_equal; [f_equal|]; lra.
Qed.

(** In the near-vertical branch the axis is kept when the direction points
    up and reversed otherwise. *)
Lemma near_vertical_axis_image (dvec : vec3) (h : R) :
  norm (np_cross (0.0, 0.0, 1.0) dvec) < 1e-9 ->
  transform_point (fiber_rotation dvec) (0, 0, h)
    = (0, 0, if Rgt_dec (np_dot (0.0, 0.0, 1.0) dvec) 0 then h else - h).
Proof.
  intros Hnear. unfold fiber_rotation. cbv zeta.
  destruct (Rlt_dec (norm (np_cross (0.0, 0.0, 1.0) dvec)) 1e-9) as [_|Hfar];
    [|contradiction].
  unfold transform_point.
  destruct (Rgt_dec (np_dot (0.0, 0.0, 1.0) dvec) 0).
  - unfold eye4, eye3, matvec, np_dot, vadd, vx, vy, vz; simpl.
    f_equal; [f_equal|]; lra.
  - rewrite half_turn_reverses.
    unfold rotation_matrix, vadd, vx, vy, vz; simpl.
    f_equal; [f_equal|]; lra.
Qed.

(** X8.  For every unit direction, near the vertical or not,
    [fiber_rotation] sends the unit point of the cylinder axis to within
    [1e-9] of the direction in each coordinate. *)
Theorem rotated_axis_close_to_direction (dvec : vec3) :
  norm dvec = 1 ->
  let p := transform_point (fiber_rotation dvec) (0, 0, 1) in
  Rabs (vx p - vx dvec) < 1e-9 /\
  Rabs (vy p - vy dvec) < 1e-9 /\
  Rabs (vz p - vz dvec) < 1e-9.
Proof.
  intros Hunit p. unfold p.
  destruct (Rlt_dec (norm (np_cross (0.0, 0.0, 1.0) dvec)) 1e-9) as [Hnear|Hfar].
  - rewrite near_vertical_axis_image by exact Hnear.
    apply unit_squares in Hunit.
    destruct dvec as [[x y] z]. rewrite cross_vertical in Hnear.
    destruct (norm_horizontal x y) as [Hsq Hpos].
    set (len := norm (- y, x, 0)) in *.
    unfold vx, vy, vz in *; simpl in *.
    replace (np_dot (0.0, 0.0, 1.0) (x, y, z)) with z
      by (unfold np_dot, vx, vy, vz; simpl; lra).
    assert (Hlen2 : len * len < 1e-18) by nra.
    assert (Hx : -1e-9 < x < 1e-9) by (split; nra).
    assert (Hy : -1e-9 < y < 1e-9) by (split; nra).
    destruct (Rgt_dec z 0) as [Hup|Hdown].
    + assert (Hz : 0 <= 1 - z < 1e-9) by (split; nra).
      repeat split; apply Rabs_def1; lra.
    + assert (Hz : 0 <= 1 + z < 1e-9) by (split; nra).
      repeat split; apply Rabs_def1; lra.
  - rewrite rotation_axis_image by assumption.
    destruct dvec as [[x y] z]. unfold vscale, vx, vy, vz; simpl.
    replace (1 * x - x) with 0 by ring.
    replace (1 * y - y) with 0 by ring.
    replace (1 * z - z) with 0 by ring.
    rewrite Rabs_R0. repeat split; lra.
Qed.

Lemma rotated_axis_close_to_direction_witness :
  Rabs (vz (transform_point (fiber_rotation (0, 0, 1)) (0, 0, 1)) - 1) < 1e-9.
Proof.
  assert (Hunit : norm (0, 0, 1) = 1).
  { unfold norm, vx, vy, vz; simpl.
    replace (0 * 0 + 0 * 0 + 1 * 1) with 1 by lra. apply sqrt_1. }
  exact (proj2 (proj2 (rotated_axis_close_to_direction (0, 0, 1) Hunit))).
Defined.

End OrientationProps.

(* ================================================================== *)
(** * Part VI.  Further properties of the comb outlines                *)
(* ================================================================== *)

Module CombMore.
Import Comb CombProps.

(** ** The finger baselines in closed form *)

Lemma range_nonpositive (n : Z) : (n <= 0)%Z -> range n = [].
Proof.
  intros Hn. unfold range. replace (Z.to_nat n) with 0%nat by lia. reflexivity.
Qed.

Lemma range_succ (k : Z) : (0 <= k)%Z -> range (k + 1) = range k ++ [k].
Proof.
  intros Hk. unfold range.
  replace (Z.to_nat (k + 1)) with (S (Z.to_nat k)) by lia.
  rewrite seq_S, map_app. simpl. f_equal. f_equal. lia.
Qed.

Lemma parity_cases (n : Z) :
  (0 <= n)%Z ->
  (is_even n = true /\ is_odd n = false /\
     ((n + 1 + 1) / 2 = (n + 1) / 2 + 1 /\ (n + 1) / 2 = n / 2 /\
      n = 2 * ((n + 1) / 2))%Z) \/
  (is_even n = false /\ is_odd n = true /\
     ((n + 1 + 1) / 2 = (n + 1) / 2 /\ (n + 1) / 2 = n / 2 + 1 /\
      n = 2 * (n / 2) + 1)%Z).
Proof.
  intros Hn. unfold is_odd, is_even.
  destruct (Z.eqb_spec (n mod 2) 0) as [E|E]; [left | right];
    (split; [reflexivity|]); (split; [reflexivity|]);
    revert E; Z.to_euclidean_division_equations; lia.
Qed.

(** The even indices of [range N] are [0, 2, 4, ...], the odd ones
    [1, 3, 5, ...]. *)
Lemma indices_by_parity (n : nat) :
  filter is_even (range (Z.of_nat n))
    = map (fun k => 2 * k)%Z (range ((Z.of_nat n + 1) / 2)) /\
  filter is_odd (range (Z.of_nat n))
    = map (fun k => 2 * k + 1)%Z (range (Z.of_nat n / 2)).
Proof.
  induction n as [|n [IHe IHo]]; [split; reflexivity|].
  rewrite Nat2Z.inj_succ. unfold Z.succ.
  rewrite (range_succ (Z.of_nat n)) by lia.
  rewrite !filter_app, IHe, IHo. cbn [filter].
  destruct (parity_cases (Z.of_nat n) ltac:(lia))
    as [(-> & -> & E1 & E2 & E3)|(-> & -> & E1 & E2 & E3)].
  - rewrite E1, E2.
    rewrite (range_succ (Z.of_nat n / 2)) by (apply Z.div_pos; lia).
    rewrite !map_app, !app_nil_r. cbn [map]. split; [|reflexivity].
    do 2 f_equal. lia.
  - rewrite E1, E2.
    rewrite (range_succ (Z.of_nat n / 2)) by (apply Z.div_pos; lia).
    rewrite !map_app, !app_nil_r. cbn [map]. split; [reflexivity|].
    do 2 f_equal. lia.
Qed.

(** X14.  For a positive pitch the baselines come out bottom-up in closed
    form: the [k]-th finger of E1 starts at [y0 + 2k * pitch], the [k]-th
    finger of E2 at [y0 + (2k+1) * pitch], and the E2 loop visits its fingers
    in exactly the reverse order. *)
Theorem fingers_closed_form (y0 pitch : R) (N : Z) :
  0 < pitch ->
  e1_fingers y0 pitch N
    = map (fun k => y0 + IZR (2 * k) * pitch) (range ((N + 1) / 2)) /\
  e2_fingers y0 pitch N
    = map (fun k => y0 + IZR (2 * k + 1) * pitch) (range (N / 2)) /\
  sorted_reverse (e2_fingers y0 pitch N) = rev (e2_fingers y0 pitch N).
Proof.
  intros Hp. assert (Hp0 : 0 <= pitch) by lra.
  assert (Hidx : filter is_even (range N)
                   = map (fun k => 2 * k)%Z (range ((N + 1) / 2)) /\
                 filter is_odd (range N)
                   = map (fun k => 2 * k + 1)%Z (range (N / 2))).
  { destruct (Z.le_gt_cases N 0) as [Hneg|Hpos].
    - rewrite (range_nonpositive N Hneg).
      rewrite !range_nonpositive
        by (Z.to_euclidean_division_equations; lia).
      split; reflexivity.
    - rewrite <- (Z2Nat.id N) by lia. apply indices_by_parity. }
  destruct Hidx as [He Ho].
  unfold e1_fingers, e2_fingers. rewrite !fingers_in_order by exact Hp0.
  split; [now rewrite He, map_map|].
  split; [now rewrite Ho, map_map|].
  apply sorted_reverse_ascending.
  apply StronglySorted_weaken with (P := fun a b => a + pitch <= b);
    [intros a b Hab; lra | now apply baselines_spaced].
Qed.

Lemma fingers_closed_form_witness :
  e1_fingers 10.0 2.0 5
    = map (fun k => 10.0 + IZR (2 * k) * 2.0) (range ((5 + 1) / 2)).
Proof.
  exact (proj1 (fingers_closed_form 10.0 2.0 5 ltac:(lra))).
Defined.

(** ** Points of an outline lie on its loop *)

Lemma path_edges_from (p z : point) (l : list point) :
  In p l -> exists b, In (p, b) (path_edges (l ++ [z])).
Proof.
  induction l as [|x l IH]; intros Hin; [destruct Hin|].
  destruct Hin as [->|Hin].
  - destruct l as [|b l]; simpl; eauto.
  - destruct (IH Hin) as [b Hb]. exists b.
    destruct l as [|y l]; [destruct Hin|]. simpl. right. exact Hb.
Qed.

(** Every point listed in an outline lies on its loop. *)
Lemma vertex_on_loop (l : list point) (p : point) : In p l -> on_loop l p.
Proof.
  intros Hin. destruct l as [|a l]; [destruct Hin|].
  destruct (path_edges_from p a (a :: l) Hin) as [b Hb].
  exists (p, b). split; [exact Hb|]. exists 0. simpl. repeat split; lra.
Qed.

(** ** Every finger handed to a loop is drawn *)

Lemma e1_loop_keeps (w L B : R) (p : point) (fingers : list R) :
  forall (pts : list point) (cur_y : R),
    In p pts -> In p (fst (e1_loop w L B fingers pts cur_y)).
Proof.
  induction fingers as [|fy fingers IH]; intros pts cur_y Hin; simpl; [exact Hin|].
  apply IH. destruct (Rgt_dec fy cur_y); rewrite !in_app_iff; auto.
Qed.

Lemma insort_reverse_In (x y : R) (l : list R) :
  In y (insort_reverse x l) <-> y = x \/ In y l.
Proof.
  induction l as [|z l IH]; simpl.
  - intuition.
  - destruct (Rlt_dec x z); simpl; rewrite ?IH; intuition.
Qed.

Lemma sorted_reverse_In (l : list R) (y : R) : In y (sorted_reverse l) <-> In y l.
Proof.
  induction l as [|x l IH]; [reflexivity|].
  change (sorted_reverse (x :: l)) with (insort_reverse x (sorted_reverse l)).
  rewrite insort_reverse_In, IH. simpl. intuition.
Qed.

Lemma e1_loop_draws (w L B fy : R) (fingers : list R) :
  In fy fingers ->
  forall (pts : list point) (cur_y : R),
    let out := fst (e1_loop w L B fingers pts cur_y) in
    In (x_left_bus + B + L, fy) out /\
    In (x_left_bus + B + L, fy + w) out /\
    In (x_left_bus + B, fy + w) out.
Proof.
  induction fingers as [|fz fingers IH]; intros Hin pts cur_y; [destruct Hin|].
  destruct Hin as [->|Hin]; simpl.
  - repeat split; apply e1_loop_keeps; rewrite !in_app_iff; simpl; auto 10.
  - apply IH. exact Hin.
Qed.

Lemma e2_loop_keeps (w L xr : R) (p : point) (fingers : list R) :
  forall (pts : list point) (cur_y : R),
    In p pts -> In p (fst (e2_loop w L xr fingers pts cur_y)).
Proof.
  induction fingers as [|fy fingers IH]; intros pts cur_y Hin; simpl; [exact Hin|].
  apply IH. destruct (Rlt_dec (fy + w) cur_y); rewrite !in_app_iff; auto.
Qed.

Lemma e2_loop_draws (w L xr fy : R) (fingers : list R) :
  In fy fingers ->
  forall (pts : list point) (cur_y : R),
    let out := fst (e2_loop w L xr fingers pts cur_y) in
    In (xr - L, fy + w) out /\
    In (xr - L, fy) out /\
    In (xr, fy) out.
Proof.
  induction fingers as [|fz fingers IH]; intros Hin pts cur_y; [destruct Hin|].
  destruct Hin as [->|Hin]; simpl.
  - repeat split; apply e2_loop_keeps; rewrite !in_app_iff; simpl; auto 10.
  - apply IH. exact Hin.
Qed.

(** X19.  Whatever the inputs, every baseline handed to an electrode shows
    in its outline as a finger of length [L] and width [w]: the E1 outline
    holds the corners [(B + L, fy)], [(B + L, fy + w)], [(B, fy + w)] of each
    of its baselines [fy], the E2 outline the corners [(xr - L, fy + w)],
    [(xr - L, fy)], [(xr, fy)] with [xr = B + L + g]. *)
Theorem fingers_are_drawn (w g L : R) (N : Z) (B margin_top margin_bottom : R)
  (e1_pts e2_pts : list point) (W H : R) (fy : R) :
  build_geometry w g L N B margin_top margin_bottom
    = ([("E1"%string, e1_pts); ("E2"%string, e2_pts)], W, H) ->
  (In fy (e1_fingers margin_bottom (w + g) N) ->
     In (x_left_bus + B + L, fy) e1_pts /\
     In (x_left_bus + B + L, fy + w) e1_pts /\
     In (x_left_bus + B, fy + w) e1_pts) /\
  (In fy (e2_fingers margin_bottom (w + g) N) ->
     In (B + L + g - L, fy + w) e2_pts /\
     In (B + L + g - L, fy) e2_pts /\
     In (B + L + g, fy) e2_pts).
Proof.
  intros Hbuild. unfold build_geometry in Hbuild.
  injection Hbuild as He1 He2 _ _. subst e1_pts e2_pts. split; intros Hin.
  - unfold e1_outline. cbv zeta.
    match goal with
    | |- context [e1_loop w L B ?fs ?pts ?cur] =>
        pose proof (e1_loop_draws w L B fy fs Hin pts cur) as Hd;
        destruct (e1_loop w L B fs pts cur) as [pts' cur']
    end.
    simpl in Hd. destruct Hd as (H1 & H2 & H3).
    destruct (Rgt_dec _ cur'); rewrite !in_app_iff; auto 10.
  - unfold e2_outline. cbv zeta.
    apply sorted_reverse_In in Hin.
    match goal with
    | |- context [e2_loop w L ?xr ?fs ?pts ?cur] =>
        pose proof (e2_loop_draws w L xr fy fs Hin pts cur) as Hd;
        destruct (e2_loop w L xr fs pts cur) as [pts' cur']
    end.
    simpl in Hd. destruct Hd as (H1 & H2 & H3).
    destruct (Rgt_dec cur' 0.0); rewrite ?in_app_iff; auto 10.
Qed.

Lemma fingers_are_drawn_witness :
  In (x_left_bus + 5.0 + 10.0, 0.0 + 0 * (1.0 + 1.0) + 1.0)
     [(0, 0); (5, 0); (15, 0); (15, 1); (5, 1); (5, 3); (0, 3)].
Proof.
  refine (proj1 (proj2 (proj1 (fingers_are_drawn 1.0 1.0 10.0 2 5.0 0.0 0.0
                                 _ _ _ _ (0.0 + 0 * (1.0 + 1.0))
                                 build_geometry_two_fingers) _))).
  unfold e1_fingers, range. simpl. left. reflexivity.
Defined.

End CombMore.

(* ================================================================== *)
(** * Part VII.  The comb outlines in binary64                         *)
(* ================================================================== *)

Module CombF64Props.
Import Comb CombProps CombMore.
Import PrimFloat.
Set Warnings "-inexact-float".

(** ** Reading floats as real numbers *)

Lemma exact_fraction (f : float) (m e : Z) :
  CombF64.decode f = (m, e) -> (e <? 0)%Z = true ->
  CombF64.exact f = IZR m / IZR (2 ^ (- e)).
Proof.
  intros Hd He. unfold CombF64.exact. rewrite Hd.
  destruct (0 <=? e)%Z eqn:E; [|reflexivity].
  apply Z.leb_le in E. apply Z.ltb_lt in He. lia.
Qed.

Lemma exact_zero : CombF64.exact 0%float = 0.
Proof.
  unfold CombF64.exact.
  replace (CombF64.decode 0%float) with (0, 0)%Z by (vm_compute; reflexivity).
  reflexivity.
Qed.

Lemma exact_fifteen : CombF64.exact 15%float = 15.
Proof.
  rewrite (exact_fraction 15%float 8444249301319680 (-49))
    by (vm_compute; reflexivity).
  change (2 ^ (- -49))%Z with 562949953421312%Z. lra.
Qed.

(** ** The function run on concrete inputs *)

(** Where nothing is rounded the two readings of the code return the same
    outlines: the hand-traced run with two fingers. *)
Example build_geometry_two_fingers_binary64 :
  CombF64.build_geometry 1 1 10 2 5 0 0
    = ([("E1"%string, [(0, 0); (5, 0); (15, 0); (15, 1); (5, 1); (5, 3); (0, 3)]);
        ("E2"%string, [(21, 0); (21, 3); (16, 3); (6, 3); (6, 2); (16, 2); (16, 0)])],
       21, 3)%float.
Proof. vm_compute. reflexivity. Qed.


(** With a busbar so wide that the gap is below the spacing of the floats at
    its far edge, the tip of the E1 finger and the corner of the E2 busbar
    are one and the same point: the outlines touch. *)
Example electrodes_share_a_corner :
  exists (e1 e2 : list CombF64.point) (W H : float),
    CombF64.build_geometry 1 0.01 10 2 1e17 0 0
      = ([("E1"%string, e1); ("E2"%string, e2)], W, H) /\
    In (100000000000000016, 0)%float e1 /\
    In (100000000000000016, 0)%float e2.
Proof.
  do 4 eexists. split; [vm_compute; reflexivity|].
  split; cbn; tauto.
Qed.

(** With the defaults of the page and a gap of 0.05, the baseline of the top
    E2 finger plus the finger width rounds to one step above the total
    height: the guard [fy_top < cur_y] is false, no busbar point is added,
    and the outline runs from the busbar corner at the top straight to a
    finger corner that is higher, along an edge that is neither horizontal
    nor vertical. *)
Example top_finger_above_total_height :
  exists (e1 e2 : list CombF64.point) (W H : float) (pre post : list CombF64.point),
    CombF64.build_geometry 1 0.05 10 10 5 0 10
      = ([("E1"%string, e1); ("E2"%string, e2)], W, H) /\
    H = 20.449999999999999%float /\
    e2 = pre ++ (15.050000000000001, 20.449999999999999)%float
             :: (5.0500000000000007, 20.450000000000003)%float :: post.
Proof.
  do 4 eexists.
  exists [(20.050000000000001, 0); (20.050000000000001, 20.449999999999999)]%float.
  eexists.
  split; [vm_compute; reflexivity|]. split; reflexivity.
Qed.

(** With a bottom margin so large that the pitch is below the spacing of the
    floats there, all baselines and finger tops round to the margin: each
    finger is drawn with zero width, consecutive points repeat. *)
Example fingers_collapse :
  CombF64.build_geometry 0.01 0.01 10 2 5 0 1e17
    = ([("E1"%string,
         [(0, 0); (5, 0); (5, 1e17); (15, 1e17); (15, 1e17); (5, 1e17); (0, 1e17)]);
        ("E2"%string,
         [(20.009999999999998, 0); (20.009999999999998, 1e17); (15.01, 1e17);
          (5.0099999999999998, 1e17); (5.0099999999999998, 1e17); (15.01, 1e17);
          (15.01, 0)])],
       20.009999999999998, 1e17)%float.
Proof. vm_compute. reflexivity. Qed.

End CombF64Props.

(* ================================================================== *)
(** * Part VIII.  Further properties of generation runs                *)
(* ================================================================== *)

Module GenerationMore.
Import Nanomesh NanomeshProps SamplerMore.

Section Runs.
Context {G : Type} {gen : Generator G} {lib : MeshLib}.

(** The shape is made of the first three draws, in this order: length,
    azimuth, tilt. *)
Lemma draw_shape_draws (g : G) :
  let g1 := snd (uniform L_min L_max g) in
  let g2 := snd (uniform 0.0 (2 * PI) g1) in
  fst (draw_shape g)
    = (fst (uniform L_min L_max g),
       direction (fst (uniform 0.0 (2 * PI) g1))
                 (clip (fst (normal 0.0 (deg2rad tilt_std_deg) g2))
                       (- deg2rad tilt_clip_deg) (deg2rad tilt_clip_deg))).
Proof.
  unfold draw_shape, bind, ret. cbv zeta.
  destruct (uniform L_min L_max g) as [L g1]. cbn [fst snd].
  destruct (uniform 0.0 (2 * PI) g1) as [phi g2]. cbn [fst snd].
  destruct (normal 0.0 (deg2rad tilt_std_deg) g2) as [t g3]. reflexivity.
Qed.

(** X9.  Tilting never changes the heading in the plane.  With [phi] the
    azimuth that [sample_fiber] draws (its second draw) and [tilt] the
    clipped tilt (from its third draw), the direction returned is
    [(cos phi * cos tilt, sin phi * cos tilt, sin tilt)] with [cos tilt]
    positive: its horizontal part points along the drawn azimuth
    [(cos phi, sin phi)], and is only shortened by the tilt. *)
Theorem direction_spherical (sheet_w sheet_d sheet_t : R) (g : G) :
  let g1 := snd (uniform L_min L_max g) in
  let phi := fst (uniform 0.0 (2 * PI) g1) in
  let g2 := snd (uniform 0.0 (2 * PI) g1) in
  let tilt := clip (fst (normal 0.0 (deg2rad tilt_std_deg) g2))
                   (- deg2rad tilt_clip_deg) (deg2rad tilt_clip_deg) in
  snd (fst (sample_fiber sheet_w sheet_d sheet_t g))
    = (cos phi * cos tilt, sin phi * cos tilt, sin tilt) /\
  0 < cos tilt.
Proof.
  intros g1 phi g2 tilt.
  destruct (sample_fiber_shape sheet_w sheet_d sheet_t g) as [c ->].
  cbn [fst snd]. rewrite draw_shape_draws. cbn [snd].
  fold g1. fold phi. fold g2. fold tilt.
  split; [apply direction_formula|].
  assert (Hb : - deg2rad tilt_clip_deg <= tilt <= deg2rad tilt_clip_deg).
  { apply clip_bounds.
    unfold deg2rad, tilt_clip_deg, tilt_std_deg; pose proof PI_RGT_0; lra. }
  apply cos_gt_0;
    unfold deg2rad, tilt_clip_deg, tilt_std_deg in Hb; pose proof PI_RGT_0; lra.
Qed.

(** The state a run leaves behind is the state after sampling its fibers. *)
Lemma state_after_run (sheet_w sheet_d sheet_t fiber_diam : R)
  (fiber_r : option R) (n_fibers : Z) (g : G) :
  snd (generate_nanomesh_stl sheet_w sheet_d sheet_t fiber_diam fiber_r n_fibers g)
    = snd (population (Z.to_nat n_fibers) sheet_w sheet_d sheet_t g).
Proof.
  unfold generate_nanomesh_stl, bind, ret.
  rewrite fiber_loop_population. reflexivity.
Qed.

Lemma population_app (n m : nat) (sheet_w sheet_d sheet_t : R) (g : G) :
  fst (population (n + m) sheet_w sheet_d sheet_t g)
    = fst (population n sheet_w sheet_d sheet_t g)
      ++ fst (population m sheet_w sheet_d sheet_t
                (snd (population n sheet_w sheet_d sheet_t g))) /\
  snd (population (n + m) sheet_w sheet_d sheet_t g)
    = snd (population m sheet_w sheet_d sheet_t
             (snd (population n sheet_w sheet_d sheet_t g))).
Proof.
  revert g. induction n as [|n IH]; intro g; simpl.
  - split; reflexivity.
  - unfold bind. destruct (sample_fiber sheet_w sheet_d sheet_t g) as [f g1].
    destruct (IH g1) as [IHf IHs].
    destruct (population (n + m) sheet_w sheet_d sheet_t g1) as [fs g2].
    destruct (population n sheet_w sheet_d sheet_t g1) as [fs1 g3].
    simpl in *. subst. split; reflexivity.
Qed.

(** X10.  The generator is shared and never reseeded, so a second run
    continues the draws of the first: a run of [n] fibers followed by a run of
    [m] fibers on the same sheet samples the fibers that one run of [n + m]
    fibers samples, and leaves the same state. *)
Theorem successive_runs_continue (sheet_w sheet_d sheet_t fiber_diam : R)
  (fiber_r : option R) (n m : nat) (g : G) :
  let g1 := snd (generate_nanomesh_stl sheet_w sheet_d sheet_t fiber_diam fiber_r
                   (Z.of_nat n) g) in
  fst (population (n + m) sheet_w sheet_d sheet_t g)
    = fst (population n sheet_w sheet_d sheet_t g)
      ++ fst (population m sheet_w sheet_d sheet_t g1) /\
  snd (generate_nanomesh_stl sheet_w sheet_d sheet_t fiber_diam fiber_r
         (Z.of_nat (n + m)) g)
    = snd (generate_nanomesh_stl sheet_w sheet_d sheet_t fiber_diam fiber_r
             (Z.of_nat m) g1).
Proof.
  intros g1. unfold g1. rewrite !state_after_run, !Nat2Z.id.
  apply population_app.
Qed.

End Runs.

End GenerationMore.

(* ================================================================== *)
(** * Part IX.  Properties of the DXF builder                          *)
(* ================================================================== *)

Module DxfProps.
Import Comb Dxf.

Section WithLibrary.
Context {Doc : Type} {lib : Ezdxf Doc} {laws : EzdxfLaws Doc}.

(** When all the polylines are added, one entity per pair has been appended
    and the layer table is as it was. *)
Lemma add_polys_spec (v : string) (polys : list (string * list point)) :
  forall doc doc' : Doc,
    add_polys v polys doc = Some doc' ->
    entities doc' = entities doc ++ map (entity_for v) polys /\
    forall name, has_layer name doc' = has_layer name doc.
Proof.
  induction polys as [|[l pts] polys IH]; intros doc doc' Hadd; simpl in Hadd.
  - injection Hadd as <-. rewrite app_nil_r. auto.
  - cbn [map]. unfold entity_for at 1. cbn [fst snd].
    destruct (String.eqb v "R12").
    + destruct (add_polyline2d pts true l doc) as [d1|] eqn:H1; [|discriminate].
      destruct (add_polyline2d_spec pts true l doc d1 H1) as [He Hl].
      destruct (IH d1 doc' Hadd) as [IHe IHl].
      rewrite IHe, He, <- app_assoc. split; [reflexivity|].
      intro name. now rewrite IHl, Hl.
    + destruct (add_lwpolyline pts true l doc) as [d1|] eqn:H1; [|discriminate].
      destruct (add_lwpolyline_spec pts true l doc d1 H1) as [He Hl].
      destruct (IH d1 doc' Hadd) as [IHe IHl].
      rewrite IHe, He, <- app_assoc. split; [reflexivity|].
      intro name. now rewrite IHl, Hl.
Qed.

(** Making sure of electrode layers never raises; it keeps the layers and
    the model space, and afterwards every requested layer is there. *)
Lemma ensure_layers_spec (names : list string) :
  incl names electrode_layers ->
  forall doc : Doc,
    exists doc', ensure_layers names doc = Some doc' /\
                 entities doc' = entities doc /\
                 (forall name, has_layer name doc = true -> has_layer name doc' = true) /\
                 (forall name, In name names -> has_layer name doc' = true).
Proof.
  induction names as [|n names IH]; intros Hincl doc; simpl.
  - exists doc. repeat split; auto.
  - assert (Hn_in : In n electrode_layers) by (apply Hincl; now left).
    assert (Hrest : incl names electrode_layers)
      by (intros x Hx; apply Hincl; now right).
    destruct (has_layer n doc) eqn:Hn; simpl.
    + destruct (IH Hrest doc) as (doc' & Heq & He & Hkeep & Hall).
      exists doc'. repeat split; auto.
      intros name [<-|Hin]; auto.
    + destruct (layers_new_absent n doc Hn_in Hn) as (d1 & Hnew & Hn1 & He1 & Hkeep1).
      rewrite Hnew.
      destruct (IH Hrest d1) as (doc' & Heq & He & Hkeep & Hall).
      exists doc'. repeat split; auto.
      * congruence.
      * intros name [<-|Hin]; auto.
Qed.

(** X17.  The layer loop of [polys_to_dxf] never raises.  Once [ezdxf.new]
    has returned a document, E1 and E2 are created only where missing, so the
    duplicate-layer error cannot occur; the loop leaves the model space as it
    was and both layers in the table.  So [polys_to_dxf] raises exactly when
    [ezdxf.new] raises or the polyline loop run on that document raises, and
    a document it returns has both layers. *)
Theorem layers_ready_before_polylines (polys : list (string * list point))
  (v : string) :
  (new v = None -> polys_to_dxf polys v = None) /\
  (forall d0, new v = Some d0 ->
     exists d1, ensure_layers electrode_layers d0 = Some d1 /\
                has_layer "E1" d1 = true /\
                has_layer "E2" d1 = true /\
                entities d1 = entities d0 /\
                polys_to_dxf polys v = add_polys v polys d1 /\
                forall doc, polys_to_dxf polys v = Some doc ->
                            has_layer "E1" doc = true /\ has_layer "E2" doc = true).
Proof.
  unfold polys_to_dxf. split.
  - intros ->. reflexivity.
  - intros d0 ->.
    destruct (ensure_layers_spec electrode_layers (incl_refl _) d0)
      as (d1 & -> & He & _ & Hall).
    assert (H1 : has_layer "E1" d1 = true) by (apply Hall; simpl; auto).
    assert (H2 : has_layer "E2" d1 = true) by (apply Hall; simpl; auto).
    exists d1. repeat split; auto;
      destruct (add_polys_spec v polys d1 doc H) as [_ Hl]; now rewrite Hl.
Qed.

(** X18.  The document returned holds exactly one closed polyline per pair
    of [polys], in order, on the pair's layer and with its points; each is a
    POLYLINE2D when the version is "R12" and an LWPOLYLINE otherwise. *)
Theorem polys_to_dxf_entities (polys : list (string * list point)) (v : string)
  (doc : Doc) :
  polys_to_dxf polys v = Some doc ->
  entities doc = map (entity_for v) polys /\
  Forall (fun e => closed e = true /\
                   kind e = if String.eqb v "R12" then POLYLINE2D else LWPOLYLINE)
         (entities doc).
Proof.
  unfold polys_to_dxf. intros Hdoc.
  destruct (new v) as [d0|] eqn:Hnew; [|discriminate].
  destruct (ensure_layers_spec electrode_layers (incl_refl _) d0)
    as (d1 & Hens & He1 & _ & _).
  rewrite Hens in Hdoc.
  destruct (add_polys_spec v polys d1 doc Hdoc) as [He _].
  assert (Hents : entities doc = map (entity_for v) polys).
  { rewrite He, He1, (new_empty v d0 Hnew). reflexivity. }
  split; [exact Hents|]. rewrite Hents.
  apply Forall_forall. intros e Hin. apply in_map_iff in Hin as [poly [<- _]].
  split; reflexivity.
Qed.

End WithLibrary.

(** The small document type meets the laws. *)
Lemma simple_ezdxf_laws : @EzdxfLaws simple_doc simple_ezdxf.
Proof.
  constructor.
  - intros v d Hnew. unfold new, simple_ezdxf in Hnew.
    destruct (existsb (String.eqb v) known_versions); [|discriminate].
    injection Hnew as <-. reflexivity.
  - intros name d Hin Habs.
    assert (Hv : valid_layer_name name = true)
      by (destruct Hin as [<-|[<-|[]]]; reflexivity).
    unfold has_layer, layers_new, simple_ezdxf in *. rewrite Habs, Hv. simpl.
    eexists. split; [reflexivity|]. simpl. repeat split.
    + rewrite existsb_app. simpl. rewrite String.eqb_refl.
      now rewrite orb_true_r.
    + intros other Ho. rewrite existsb_app, Ho. reflexivity.
  - intros pts c l d d' Hadd. unfold add_polyline2d, simple_ezdxf in Hadd.
    destruct (valid_layer_name l); [|discriminate].
    injection Hadd as <-. simpl. auto.
  - intros pts c l d d' Hadd. unfold add_lwpolyline, simple_ezdxf in Hadd.
    destruct (valid_layer_name l && negb (is_r12 d)); [|discriminate].
    injection Hadd as <-. simpl. auto.
Qed.

(** The page offers R12 and the later releases by name, and for those the
    small library writes the outlines. *)
Example simple_R2010_written :
  exists doc,
    @polys_to_dxf simple_doc simple_ezdxf
      [("E1"%string, [(0, 0); (5, 0); (5, 3)]); ("E2"%string, [(21, 0); (21, 3)])]
      "R2010" = Some doc /\
    List.length (@entities simple_doc simple_ezdxf doc) = 2%nat.
Proof. eexists. split; reflexivity. Qed.

(** Asked for by its version code, an R12 document is created, but the test
    [dxf_version == "R12"] fails and the LWPOLYLINE is refused: the call
    raises although [ezdxf.new] did not. *)
Example simple_AC1009_raises :
  @new simple_doc simple_ezdxf "AC1009" <> None /\
  @polys_to_dxf simple_doc simple_ezdxf
    [("E1"%string, [(0, 0); (5, 0); (5, 3)])] "AC1009" = None.
Proof. split; [discriminate | reflexivity]. Qed.

(** A layer name the library does not accept raises as well. *)
Example simple_reserved_name_raises :
  @polys_to_dxf simple_doc simple_ezdxf
    [("E*"%string, [(0, 0); (5, 0); (5, 3)])] "R2010" = None.
Proof. reflexivity. Qed.

(** The download path of the page: the outlines of [build_geometry] written
    for version R12. *)
Lemma polys_to_dxf_entities_witness :
  let polys := fst (fst (build_geometry 1.0 1.0 10.0 2 5.0 0.0 0.0)) in
  exists doc,
    @polys_to_dxf simple_doc simple_ezdxf polys "R12" = Some doc /\
    @entities simple_doc simple_ezdxf doc = map (entity_for "R12") polys.
Proof.
  intros polys.
  assert (Hdoc : exists doc,
             @polys_to_dxf simple_doc simple_ezdxf polys "R12" = Some doc).
  { eexists. reflexivity. }
  destruct Hdoc as [doc Hdoc].
  exists doc. split; [exact Hdoc|].
  exact (proj1 (@polys_to_dxf_entities simple_doc simple_ezdxf simple_ezdxf_laws
                  polys "R12" doc Hdoc)).
Defined.

Lemma layers_ready_before_polylines_witness :
  exists d1,
    @ensure_layers simple_doc simple_ezdxf electrode_layers
      {| version := "R2010"; layer_table := ["0"; "Defpoints"]%string;
         modelspace := [] |} = Some d1 /\
    @has_layer simple_doc simple_ezdxf "E1" d1 = true /\
    @has_layer simple_doc simple_ezdxf "E2" d1 = true.
Proof.
  destruct (proj2 (@layers_ready_before_polylines simple_doc simple_ezdxf
                     simple_ezdxf_laws [] "R2010") _ eq_refl)
    as (d1 & Hens & H1 & H2 & _).
  exists d1. auto.
Defined.

End DxfProps.
